(** * stack_pool: a pool of singly linked stacks inside one std::vector

    Shallow embedding of [src/exam/stack_pool.hpp] and proofs of the
    properties its specification states.

    - The index type [N] of the template is an unsigned integer type of
      [width] bits; its values are kept in [Z] and every narrowing
      ([static_cast<stack_type>(pool.size())]) and every wrapping
      subtraction ([x - 1] in [node]) is written out.
    - [std::vector<node_t>] is a list together with its capacity; the
      two implementation-defined choices of the standard library (the
      capacity after a reallocating [emplace_back], the capacity granted
      by [reserve]) are the fields of the class [Growth].
    - Member functions mutate the pool; they are computations in a state
      monad over the pool whose failure [None] stands for undefined
      behaviour (an access outside the vector) or, for the two loops, for
      an exhausted iteration budget.
    - Storage is unbounded in the monad [M]: an allocation inside
      [std::vector] always succeeds there, [std::bad_alloc] and
      [std::length_error] are left out.  The section on exceptions puts
      [std::length_error] on top of it for the members that are not
      [noexcept]; [std::bad_alloc], which depends on the memory of the
      machine, stays out. *)

From Stdlib Require Import ZArith Lia.
From stdpp Require Import base numbers list.

Local Open Scope Z_scope.

(** ** The index type [N] *)

(** [width] is the number of value bits of [N].  [index_width] is the
    number of bits in which the subscript [x - 1] of [node] reaches
    [std::vector::operator[]]: [width] itself for a type at least as wide
    as [unsigned int], and the width of [size_type] for a narrower type,
    which is promoted to [int] before the subtraction. *)
Class Index := {
  width : Z;
  index_width : Z;
  width_pos : 0 < width;
  width_le : width <= index_width
}.

(** ** The growth choices of [std::vector] *)

Class Growth := {
  grow : nat → nat;
  fit : nat → nat;
  grow_gt : ∀ c : nat, (c < grow c)%nat;
  fit_ge : ∀ n : nat, (n ≤ fit n)%nat
}.

(** ** [std::vector], as far as the pool uses it *)

(** [elems] are the elements, [cap] is [capacity()].  [relocations] counts
    the reallocations of the storage so far; the vector does not store
    this number, a client sees it as references into the vector going
    stale. *)
Record vector (A : Type) : Type := Vector {
  elems : list A;
  cap : nat;
  relocations : nat
}.
Arguments Vector {A} _ _ _.
Arguments elems {A} _.
Arguments cap {A} _.
Arguments relocations {A} _.

Section Vector.
Context {A : Type} `{Al : Growth}.

Definition vec_empty : vector A := Vector [] 0 0.

Definition vec_size (v : vector A) : nat := length (elems v).

Definition vec_capacity (v : vector A) : nat := cap v.

(** [v[i]] for reading: [None] outside the vector. *)
Definition vec_get (v : vector A) (i : nat) : option A := elems v !! i.

(** [v[i] = a]: [None] outside the vector. *)
Definition vec_set (v : vector A) (i : nat) (a : A) : option (vector A) :=
  if decide (i < length (elems v))%nat
  then Some (Vector (<[i := a]> (elems v)) (cap v) (relocations v))
  else None.

(** [v.reserve(n)]: reallocates exactly when the capacity is less than
    [n]; the elements are kept. *)
Definition vec_reserve (n : nat) (v : vector A) : vector A :=
  if decide (cap v < n)%nat
  then Vector (elems v) (fit n) (S (relocations v))
  else v.

(** [v.emplace_back(a)]: reallocates exactly when the vector is full. *)
Definition vec_emplace_back (a : A) (v : vector A) : vector A :=
  if decide (cap v ≤ length (elems v))%nat
  then Vector (elems v ++ [a]) (grow (cap v)) (S (relocations v))
  else Vector (elems v ++ [a]) (cap v) (relocations v).
End Vector.

(** ** The pool *)

Section Pool.
Context {T : Type} `{Ix : Index} `{Al : Growth}.

(** [using stack_type = N] *)
Definition stack_type : Type := Z.

(** [struct node_t { T value; N next; }] *)
Record node_t : Type := Node {
  node_value : T;
  node_next : stack_type
}.

(** [class stack_pool { std::vector<node_t> pool; stack_type free_nodes; }] *)
Record stack_pool : Type := StackPool {
  pool : vector node_t;
  free_nodes : stack_type
}.

(** [static_cast<stack_type>(n)] of a [size_type]. *)
Definition static_cast (n : nat) : stack_type := Z.of_nat n mod 2 ^ width.

(** The subscript [x - 1] handed to [operator[]]. *)
Definition slot (x : stack_type) : nat := Z.to_nat ((x - 1) mod 2 ^ index_width).

(** *** The state monad of the member functions *)

Definition M (R : Type) : Type := stack_pool → option (R * stack_pool).

Definition ret {R} (r : R) : M R := λ s, Some (r, s).

Definition bind {R R'} (m : M R) (k : R → M R') : M R' :=
  λ s, match m s with
       | Some (r, s') => k r s'
       | None => None
       end.

Definition stop {R} : M R := λ _, None.

Notation "'let*' x ':=' m 'in' k" := (bind m (λ x, k))
  (at level 10, x name, m at level 100, k at level 200, only parsing).

Definition get_free_nodes : M stack_type := λ s, Some (free_nodes s, s).

Definition set_free_nodes (x : stack_type) : M unit :=
  λ s, Some (tt, StackPool (pool s) x).

(** [stack_type end() const noexcept { return stack_type(0); }] *)
Definition end_ : stack_type := 0.

(** [bool empty(stack_type x) const noexcept { return x == end(); }] *)
Definition empty (x : stack_type) : bool := x =? end_.

(** [node_t& node(stack_type x) noexcept { return pool[x - 1]; }], read. *)
Definition node (x : stack_type) : M node_t :=
  λ s, match vec_get (pool s) (slot x) with
       | Some nd => Some (nd, s)
       | None => None
       end.

(** An assignment through the reference [node(x)]. *)
Definition node_assign (x : stack_type) (nd : node_t) : M unit :=
  λ s, match vec_set (pool s) (slot x) nd with
       | Some v => Some (tt, StackPool v (free_nodes s))
       | None => None
       end.

(** [T& value(stack_type x) noexcept { return node(x).value; }], read. *)
Definition value (x : stack_type) : M T :=
  let* nd := node x in ret (node_value nd).

(** [value(x) = v] *)
Definition value_assign (x : stack_type) (v : T) : M unit :=
  let* nd := node x in node_assign x (Node v (node_next nd)).

(** [stack_type& next(stack_type x) noexcept { return node(x).next; }], read. *)
Definition next (x : stack_type) : M stack_type :=
  let* nd := node x in ret (node_next nd).

(** [next(x) = n] *)
Definition next_assign (x : stack_type) (n : stack_type) : M unit :=
  let* nd := node x in node_assign x (Node (node_value nd) n).

(** [stack_pool() : free_nodes{end()} {}] *)
Definition stack_pool_default : stack_pool := StackPool vec_empty end_.

(** [void reserve(size_type n) { pool.reserve(n); }] *)
Definition reserve (n : nat) : M unit :=
  λ s, Some (tt, StackPool (vec_reserve n (pool s)) (free_nodes s)).

(** [explicit stack_pool(size_type n) : stack_pool() { reserve(n); }] *)
Definition stack_pool_sized (n : nat) : option stack_pool :=
  match reserve n stack_pool_default with
  | Some (_, s) => Some s
  | None => None
  end.

(** [size_type capacity() const noexcept { return pool.capacity(); }] *)
Definition capacity (s : stack_pool) : nat := vec_capacity (pool s).

(** [stack_type new_stack() noexcept { return end(); }] *)
Definition new_stack : M stack_type := ret end_.

(** [pool.emplace_back(val, head)] *)
Definition emplace_back (nd : node_t) : M unit :=
  λ s, Some (tt, StackPool (vec_emplace_back nd (pool s)) (free_nodes s)).

(** [pool.size()] *)
Definition size : M nat := λ s, Some (vec_size (pool s), s).

(** [_push], the body shared by both overloads of [push]. *)
Definition _push (val : T) (head : stack_type) : M stack_type :=
  let* f := get_free_nodes in
  if empty f then
    let* _ := emplace_back (Node val head) in
    let* n := size in
    ret (static_cast n)
  else
    let tmp := f in
    let* nx := next f in
    let* _ := set_free_nodes nx in
    let* _ := value_assign tmp val in
    let* _ := next_assign tmp head in
    ret tmp.

(** [push(const T& val, stack_type head)] and [push(T&& val, stack_type head)] *)
Definition push (val : T) (head : stack_type) : M stack_type := _push val head.

(** [stack_type pop(stack_type x) noexcept] *)
Definition pop (x : stack_type) : M stack_type :=
  if empty x then ret end_
  else
    let* tmp := next x in
    let* f := get_free_nodes in
    let* _ := next_assign x f in
    let* _ := set_free_nodes x in
    ret tmp.

(** [stack_type free_stack(stack_type x) noexcept]: the [while] loop,
    with a budget of [fuel] iterations. *)
Fixpoint free_stack (fuel : nat) (x : stack_type) : M stack_type :=
  if empty x then ret x
  else match fuel with
       | O => stop
       | S fuel' => let* x' := pop x in free_stack fuel' x'
       end.

(** *** The iterator *)

(** [class _iterator { stack_pool* pool; N current; }]; the pointer is
    kept as the address [it_pool] of the pool it refers to. *)
Record _iterator : Type := Iterator {
  it_pool : positive;
  current : stack_type
}.

(** [reference operator*() const noexcept { return pool->value(current); }] *)
Definition deref (it : _iterator) : M T := value (current it).

(** [_iterator& operator++() noexcept] *)
Definition pre_inc (it : _iterator) : M _iterator :=
  let* n := next (current it) in ret (Iterator (it_pool it) n).

(** [_iterator operator++(int)]: the pair of the returned copy and the
    advanced iterator. *)
Definition post_inc (it : _iterator) : M (_iterator * _iterator) :=
  let tmp := it in
  let* it' := pre_inc it in ret (tmp, it').

(** [operator==(const _iterator& x, const _iterator& y)] *)
Definition iterator_eq (x y : _iterator) : bool := current x =? current y.

(** [operator!=(const _iterator& x, const _iterator& y)] *)
Definition iterator_neq (x y : _iterator) : bool := negb (iterator_eq x y).

(** [iterator begin(stack_type x) { return iterator(this, x); }] *)
Definition begin (this : positive) (x : stack_type) : _iterator := Iterator this x.

(** [iterator end(stack_type) { return iterator(this, end()); }] *)
Definition end_it (this : positive) (x : stack_type) : _iterator := Iterator this end_.

(** The client loop
    [for (auto it = begin(h); it != end(h); ++it) out.push_back( *it );]
    started at [it], with a budget of [fuel] iterations. *)
Fixpoint iterate (fuel : nat) (this : positive) (h : stack_type)
    (it : _iterator) : M (list T) :=
  if iterator_neq it (end_it this h) then
    match fuel with
    | O => stop
    | S fuel' =>
        let* v := deref it in
        let* it' := pre_inc it in
        let* vs := iterate fuel' this h it' in
        ret (v :: vs)
    end
  else ret [].

Definition to_list (fuel : nat) (this : positive) (h : stack_type) : M (list T) :=
  iterate fuel this h (begin this h).

(** A run of pushes [v1, ..., vk], each onto the head returned by the
    one before. *)
Fixpoint push_all (vs : list T) (h : stack_type) : M stack_type :=
  match vs with
  | [] => ret h
  | v :: vs' => let* h' := push v h in push_all vs' h'
  end.

(** A run of pushes, each with its own value and head. *)
Fixpoint push_each (ps : list (T * stack_type)) : M (list stack_type) :=
  match ps with
  | [] => ret []
  | (v, h) :: ps' =>
      let* r := push v h in
      let* rs := push_each ps' in
      ret (r :: rs)
  end.

(** [k] calls of [pop], each on the handle returned by the one before. *)
Fixpoint pop_n (k : nat) (x : stack_type) : M stack_type :=
  match k with
  | O => ret x
  | S k' => let* x' := pop x in pop_n k' x'
  end.

(** [k] pre-increments of an iterator, [std::advance(it, k)]. *)
Fixpoint advance (k : nat) (it : _iterator) : M _iterator :=
  match k with
  | O => ret it
  | S k' => let* it' := pre_inc it in advance k' it'
  end.

End Pool.

Arguments node_t : clear implicits.
Arguments stack_pool : clear implicits.
Arguments M : clear implicits.

(** ** Stacks as chains of nodes *)

Section Shape.
Context {T : Type} `{Ix : Index}.

(** [chain es x l]: following [next] from the handle [x] in the storage
    [es] visits exactly the nodes of [l], each given with its handle and
    its value, and then reaches the sentinel. *)
Inductive chain (es : list (node_t T)) :
    stack_type → list (stack_type * T) → Prop :=
| chain_end : chain es end_ []
| chain_node (x : stack_type) (v : T) (n : stack_type) l :
    0 < x < 2 ^ width →
    es !! slot x = Some (Node v n) →
    chain es n l →
    chain es x ((x, v) :: l).

(** The stack with head [h] holds the nodes [l]. *)
Definition is_stack (s : stack_pool T) (h : stack_type)
    (l : list (stack_type * T)) : Prop :=
  chain (elems (pool s)) h l.

(** The free list of the pool holds the nodes [fl]. *)
Definition free_list (s : stack_pool T) (fl : list (stack_type * T)) : Prop :=
  chain (elems (pool s)) (free_nodes s) fl.

(** Two chains share no node. *)
Definition separate (l m : list (stack_type * T)) : Prop :=
  ∀ y : stack_type, y ∈ l.*1 → y ∈ m.*1 → False.

(** Every node of the storage has a handle of its own. *)
Definition addressable (s : stack_pool T) : Prop :=
  Z.of_nat (vec_size (pool s)) < 2 ^ width.

(** The index type can address the node that the next [push] creates:
    either a freed node is reused, or the storage, one node longer, still
    has fewer than [2 ^ width] nodes. *)
Definition has_room (s : stack_pool T) : Prop :=
  free_nodes s = end_ → Z.of_nat (S (vec_size (pool s))) < 2 ^ width.

(** The same for a run of [k] pushes started with [m] free nodes. *)
Definition has_room_for (k m : nat) (s : stack_pool T) : Prop :=
  Z.of_nat (vec_size (pool s) + (k - m)) < 2 ^ width.

(** The handle of the [k]-th node of a chain, the sentinel past its end. *)
Definition handle_at (l : list (stack_type * T)) (k : nat) : stack_type :=
  default end_ (fst <$> l !! k).

(** The chain [l] with the value [v] at the node [x]. *)
Definition revalue (x : stack_type) (v : T) (l : list (stack_type * T)) :
    list (stack_type * T) :=
  (λ p, if decide (p.1 = x) then (x, v) else p) <$> l.

(** The pool is owned by the stacks [stacks], each a head with its chain,
    and the free list [fl]: every node of the storage has a handle, every
    chain is laid out in the storage, no two chains share a node, and
    every node lies on one of them. *)
Definition owns (s : stack_pool T)
    (stacks : list (stack_type * list (stack_type * T)))
    (fl : list (stack_type * T)) : Prop :=
  addressable s
  ∧ free_list s fl
  ∧ (∀ (i : nat) h l, stacks !! i = Some (h, l) →
       is_stack s h l ∧ separate l fl)
  ∧ (∀ (i j : nat) hi li hj lj, i ≠ j →
       stacks !! i = Some (hi, li) → stacks !! j = Some (hj, lj) →
       separate li lj)
  ∧ (∀ x : stack_type, 0 < x <= Z.of_nat (vec_size (pool s)) →
       x ∈ fl.*1 ∨ ∃ (i : nat) h l, stacks !! i = Some (h, l) ∧ x ∈ l.*1).

End Shape.

(** ** A client of the pool *)

Section Client.
Context {T : Type} `{Ix : Index} `{Al : Growth}.

Notation "'let*' x ':=' m 'in' k" := (bind m (λ x, k))
  (at level 10, x name, m at level 100, k at level 200, only parsing).

(** The calls of a client that holds a list of stack heads and names a
    stack by its position in that list. *)
Inductive call : Type :=
| NewStack
| Push (i : nat) (v : T)
| Pop (i : nat)
| FreeStack (i : nat)
| Reserve (n : nat).

(** One call: the client passes the head it holds and keeps the head the
    pool returns, [h = pool.push(v, h)], [h = pool.pop(h)],
    [h = pool.free_stack(h)]; a call on a position it does not hold is
    skipped. *)
Definition step (fuel : nat) (c : call) (heads : list stack_type) :
    M T (list stack_type) :=
  match c with
  | NewStack => let* h := new_stack in ret (heads ++ [h])
  | Push i v =>
      match heads !! i with
      | Some h => let* r := push v h in ret (<[i := r]> heads)
      | None => ret heads
      end
  | Pop i =>
      match heads !! i with
      | Some h => let* r := pop h in ret (<[i := r]> heads)
      | None => ret heads
      end
  | FreeStack i =>
      match heads !! i with
      | Some h => let* r := free_stack fuel h in ret (<[i := r]> heads)
      | None => ret heads
      end
  | Reserve n => let* _ := reserve n in ret heads
  end.

Fixpoint run (fuel : nat) (cs : list call) (heads : list stack_type) :
    M T (list stack_type) :=
  match cs with
  | [] => ret heads
  | c :: cs' => let* heads' := step fuel c heads in run fuel cs' heads'
  end.

(** The same calls on plain lists. *)
Definition step_list (c : call) (ls : list (list T)) : list (list T) :=
  match c with
  | NewStack => ls ++ [[]]
  | Push i v =>
      match ls !! i with
      | Some l => <[i := v :: l]> ls
      | None => ls
      end
  | Pop i =>
      match ls !! i with
      | Some l => <[i := tail l]> ls
      | None => ls
      end
  | FreeStack i =>
      match ls !! i with
      | Some l => <[i := []]> ls
      | None => ls
      end
  | Reserve n => ls
  end.

Fixpoint run_list (cs : list call) (ls : list (list T)) : list (list T) :=
  match cs with
  | [] => ls
  | c :: cs' => run_list cs' (step_list c ls)
  end.

(** The number of [Push] calls. *)
Fixpoint pushes (cs : list call) : nat :=
  match cs with
  | [] => 0
  | Push _ _ :: cs' => S (pushes cs')
  | _ :: cs' => pushes cs'
  end.

End Client.

Arguments call : clear implicits.

(** ** The exceptions of [std::vector] *)

(** [max_size] is [pool.max_size()], the largest size the vector can
    have; the standard library fixes it. *)
Class Limits := {
  max_size : nat
}.

(** [std::length_error], the exception of [reserve] and of a growing
    [emplace_back]. *)
Inductive exception : Type :=
| length_error.

Section VectorThrowing.
Context {A : Type} `{Al : Growth} `{Lm : Limits}.

(** [v.reserve(n)]: throws [std::length_error] if [n > max_size()],
    before anything else; the vector is untouched then. *)
Definition vec_reserve_x (n : nat) (v : vector A) : exception + vector A :=
  if decide (max_size < n)%nat then inl length_error
  else inr (vec_reserve n v).

(** [v.emplace_back(a)]: a full vector must grow, and a vector that has
    [max_size()] elements cannot: [std::length_error], the vector is
    untouched. *)
Definition vec_emplace_back_x (a : A) (v : vector A) : exception + vector A :=
  if decide ((cap v ≤ length (elems v))%nat ∧ (max_size ≤ length (elems v))%nat)
  then inl length_error
  else inr (vec_emplace_back a v).

End VectorThrowing.

Section Throwing.
Context {T : Type} `{Ix : Index} `{Al : Growth} `{Lm : Limits}.

(** What a call does: it returns a result, its behaviour is undefined, or
    it throws; in each case but the second the pool is left in a
    state. *)
Inductive outcome (R : Type) : Type :=
| Returns (r : R) (s : stack_pool T)
| Undefined
| Throws (e : exception) (s : stack_pool T).
Arguments Returns {R} _ _.
Arguments Undefined {R}.
Arguments Throws {R} _ _.

Definition X (R : Type) : Type := stack_pool T → outcome R.

Definition ret_x {R} (r : R) : X R := λ s, Returns r s.

Definition bind_x {R R'} (m : X R) (k : R → X R') : X R' :=
  λ s, match m s with
       | Returns r s' => k r s'
       | Undefined => Undefined
       | Throws e s' => Throws e s'
       end.

(** A member that is [noexcept] makes no call that throws: it is its
    computation in [M]. *)
Definition lift {R} (m : M T R) : X R :=
  λ s, match m s with
       | Some (r, s') => Returns r s'
       | None => Undefined
       end.

Notation "'let*' x ':=' m 'in' k" := (bind_x m (λ x, k))
  (at level 10, x name, m at level 100, k at level 200, only parsing).

(** [void reserve(size_type n) { pool.reserve(n); }], not [noexcept]. *)
Definition reserve_x (n : nat) : X unit :=
  λ s, match vec_reserve_x n (pool s) with
       | inl e => Throws e s
       | inr v => Returns tt (StackPool v (free_nodes s))
       end.

(** [explicit stack_pool(size_type n) : stack_pool() { reserve(n); }],
    not [noexcept]: the pool constructed, or the exception. *)
Definition stack_pool_sized_x (n : nat) : outcome unit :=
  reserve_x n stack_pool_default.

(** [pool.emplace_back(val, head)] *)
Definition emplace_back_x (nd : node_t T) : X unit :=
  λ s, match vec_emplace_back_x nd (pool s) with
       | inl e => Throws e s
       | inr v => Returns tt (StackPool v (free_nodes s))
       end.

(** [_push], not [noexcept]. *)
Definition _push_x (val : T) (head : stack_type) : X stack_type :=
  let* f := lift get_free_nodes in
  if empty f then
    let* _ := emplace_back_x (Node val head) in
    let* n := lift size in
    ret_x (static_cast n)
  else
    let tmp := f in
    let* nx := lift (next f) in
    let* _ := lift (set_free_nodes nx) in
    let* _ := lift (value_assign tmp val) in
    let* _ := lift (next_assign tmp head) in
    ret_x tmp.

(** Both overloads of [push], not [noexcept]. *)
Definition push_x (val : T) (head : stack_type) : X stack_type :=
  _push_x val head.

(** The members declared [noexcept]. *)
Definition new_stack_x : X stack_type := lift new_stack.
Definition value_x (x : stack_type) : X T := lift (value x).
Definition next_x (x : stack_type) : X stack_type := lift (next x).
Definition pop_x (x : stack_type) : X stack_type := lift (pop x).
Definition free_stack_x (fuel : nat) (x : stack_type) : X stack_type :=
  lift (free_stack fuel x).
Definition deref_x (it : _iterator) : X T := lift (deref it).
Definition pre_inc_x (it : _iterator) : X _iterator := lift (pre_inc it).

End Throwing.

Arguments outcome : clear implicits.
Arguments X : clear implicits.
Arguments Returns {T R} _ _.
Arguments Undefined {T R}.
Arguments Throws {T R} _ _.

(** ** Instances used to run the model *)

(** [N = std::size_t] on an LP64 platform. *)
Definition size_t_index : Index.
Proof. refine {| width := 64; index_width := 64 |}; lia. Defined.

(** [N = std::uint8_t]: the subscript is computed in [int] and converted
    to the 64-bit [size_type]. *)
Definition uint8_index : Index.
Proof. refine {| width := 8; index_width := 64 |}; lia. Defined.

(** The choices of libstdc++: a full vector doubles (a vector without
    storage gets one slot), [reserve(n)] grants exactly [n]. *)
Definition doubling : Growth.
Proof.
  refine {| grow := λ c, Nat.max 1 (2 * c); fit := λ n, n |}; intros; lia.
Defined.

(** libstdc++ on an LP64 platform, for nodes of 16 bytes such as those of
    [stack_pool<int, std::size_t>]: [max_size()] is [PTRDIFF_MAX / 16]. *)
Definition lp64_limits : Limits := {| max_size := Z.to_nat (2 ^ 59 - 1) |}.

(** [SIZE_MAX], the largest value of [size_type] there. *)
Definition size_max : nat := Z.to_nat (2 ^ 64 - 1).

(** A pool of three nodes: the stack [2 -> 1] with the values
    [20, 10], and the free node [3]. *)
Definition demo : stack_pool Z :=
  StackPool (Vector [Node 10 0; Node 20 1; Node 5 0] 4 3) 3.

(** A pool of two nodes without free nodes: the stack [2 -> 1]. *)
Definition packed : stack_pool Z :=
  StackPool (Vector [Node 10 0; Node 20 1] 2 2) 0.

(** The pool after 255 pushes of the value 7 onto one stack: the nodes
    [1, ..., 255], node [i] linked to node [i - 1]. *)
Definition full : stack_pool Z :=
  StackPool
    (Vector (imap (λ i v, Node v (Z.of_nat i)) (replicate 255 7)) 256 9) end_.

(** ** Elementary facts *)

Section Facts.
Context {T : Type} `{Ix : Index} `{Al : Growth}.

Implicit Types (s : stack_pool T) (es : list (node_t T)) (x h f : stack_type)
  (l fl : list (stack_type * T)).

Lemma pow_width_le : 2 ^ width <= 2 ^ index_width.
Proof.
  apply Z.pow_le_mono_r; [lia | apply width_le].
Qed.

Lemma pow_width_pos : 0 < 2 ^ width.
Proof. apply Z.pow_pos_nonneg; [lia | pose proof width_pos; lia]. Qed.

Lemma slot_live x : 0 < x < 2 ^ width → slot x = Z.to_nat (x - 1).
Proof.
  intros Hx. unfold slot. pose proof pow_width_le.
  rewrite Z.mod_small; [done | lia].
Qed.

Lemma slot_inj x y :
  0 < x < 2 ^ width → 0 < y < 2 ^ width → slot x = slot y → x = y.
Proof.
  intros Hx Hy. rewrite !slot_live by done. lia.
Qed.

Lemma slot_end : slot end_ = Z.to_nat (2 ^ index_width - 1).
Proof.
  unfold slot, end_. f_equal.
  pose proof pow_width_le. pose proof pow_width_pos.
  replace (0 - 1) with (-1) by lia.
  rewrite <- (Z.mod_add _ 1) by lia.
  rewrite Z.mod_small; lia.
Qed.

Lemma static_cast_small (n : nat) :
  Z.of_nat n < 2 ^ width → static_cast n = Z.of_nat n.
Proof. intros Hn. unfold static_cast. rewrite Z.mod_small; lia. Qed.

Lemma empty_true x : empty x = true ↔ x = end_.
Proof. unfold empty. apply Z.eqb_eq. Qed.

Lemma empty_false x : empty x = false ↔ x ≠ end_.
Proof. unfold empty. apply Z.eqb_neq. Qed.

(** *** Chains *)

Lemma chain_end_inv es l : chain es end_ l → l = [].
Proof. inversion 1; [done | unfold end_ in *; lia]. Qed.

Lemma chain_nonempty es x l : x ≠ end_ → chain es x l → l ≠ [].
Proof. intros Hx Hc. inversion Hc; subst; done. Qed.

Lemma chain_det es x l l' : chain es x l → chain es x l' → l = l'.
Proof.
  intros Hc. revert l'.
  induction Hc as [|x v n l Hx Hl Hc IH]; intros l' Hc'.
  - symmetry. by eapply chain_end_inv.
  - inversion Hc' as [|x' v' n' l0 Hx' Hl' Hc0]; subst.
    + unfold end_ in *; lia.
    + rewrite Hl in Hl'. injection Hl' as -> ->.
      f_equal. by apply IH.
Qed.

Lemma chain_from_member es x l y :
  chain es x l → y ∈ l.*1 →
  ∃ l', chain es y l' ∧ (length l' ≤ length l)%nat.
Proof.
  induction 1 as [|x v n l Hx Hl Hc IH]; simpl; intros Hy.
  - by apply elem_of_nil in Hy.
  - apply elem_of_cons in Hy as [->|Hy].
    + exists ((x, v) :: l). split; [by econstructor | done].
    + destruct (IH Hy) as (l' & Hc' & Hlen).
      exists l'. split; [done | simpl; lia].
Qed.

Lemma chain_head_fresh es x v l : chain es x ((x, v) :: l) → x ∉ l.*1.
Proof.
  intros Hc Hin.
  inversion Hc as [|x' v' n l0 Hx Hl Hc0]; subst.
  destruct (chain_from_member _ _ _ _ Hc0 Hin) as (l' & Hc' & Hlen).
  pose proof (chain_det _ _ _ _ Hc Hc') as <-.
  simpl in Hlen. lia.
Qed.

Lemma chain_NoDup es x l : chain es x l → NoDup l.*1.
Proof.
  induction 1 as [|x v n l Hx Hl Hc IH]; simpl.
  - constructor.
  - constructor; [|done].
    eapply chain_head_fresh. by econstructor.
Qed.

Lemma chain_member_live es x l y :
  chain es x l → y ∈ l.*1 →
  0 < y < 2 ^ width ∧ (slot y < length es)%nat.
Proof.
  induction 1 as [|x v n l Hx Hl Hc IH]; simpl; intros Hy.
  - by apply elem_of_nil in Hy.
  - apply elem_of_cons in Hy as [->|Hy]; [|by apply IH].
    split; [done | by eapply lookup_lt_Some].
Qed.

Lemma chain_insert es x l y nd :
  chain es x l → 0 < y < 2 ^ width → y ∉ l.*1 →
  chain (<[slot y := nd]> es) x l.
Proof.
  intros Hc Hy. induction Hc as [|x v n l Hx Hl Hc IH]; simpl; intros Hn.
  - constructor.
  - apply not_elem_of_cons in Hn as [Hne Hn].
    econstructor; [done | | by apply IH].
    rewrite list_lookup_insert_ne; [done |].
    intros Heq. by apply slot_inj in Heq.
Qed.

Lemma chain_app es es' x l : chain es x l → chain (es ++ es') x l.
Proof.
  induction 1 as [|x v n l Hx Hl Hc IH]; [constructor |].
  econstructor; [done | | done].
  by apply lookup_app_l_Some.
Qed.

(** *** One call of each member function *)

Lemma node_read es c r f x nd :
  es !! slot x = Some nd →
  node x (StackPool (Vector es c r) f) = Some (nd, StackPool (Vector es c r) f).
Proof. intros Hl. unfold node, vec_get. simpl. by rewrite Hl. Qed.

Lemma node_assign_live es c r f x nd nd' :
  es !! slot x = Some nd →
  node_assign x nd' (StackPool (Vector es c r) f)
  = Some (tt, StackPool (Vector (<[slot x := nd']> es) c r) f).
Proof.
  intros Hl. unfold node_assign, vec_set. simpl.
  apply lookup_lt_Some in Hl. by rewrite decide_True.
Qed.

Lemma value_read es c r f x v n :
  es !! slot x = Some (Node v n) →
  value x (StackPool (Vector es c r) f) = Some (v, StackPool (Vector es c r) f).
Proof.
  intros Hl. unfold value, bind. by rewrite (node_read _ _ _ _ _ _ Hl).
Qed.

Lemma next_read es c r f x v n :
  es !! slot x = Some (Node v n) →
  next x (StackPool (Vector es c r) f) = Some (n, StackPool (Vector es c r) f).
Proof.
  intros Hl. unfold next, bind. by rewrite (node_read _ _ _ _ _ _ Hl).
Qed.

Lemma value_assign_live es c r f x v n v' :
  es !! slot x = Some (Node v n) →
  value_assign x v' (StackPool (Vector es c r) f)
  = Some (tt, StackPool (Vector (<[slot x := Node v' n]> es) c r) f).
Proof.
  intros Hl. unfold value_assign, bind.
  rewrite (node_read _ _ _ _ _ _ Hl). simpl.
  by erewrite node_assign_live.
Qed.

Lemma next_assign_live es c r f x v n n' :
  es !! slot x = Some (Node v n) →
  next_assign x n' (StackPool (Vector es c r) f)
  = Some (tt, StackPool (Vector (<[slot x := Node v n']> es) c r) f).
Proof.
  intros Hl. unfold next_assign, bind.
  rewrite (node_read _ _ _ _ _ _ Hl). simpl.
  by erewrite node_assign_live.
Qed.

(** [pop] of a live node: the successor is returned and the node becomes
    the head of the free list. *)
Lemma pop_live es c r f x v n :
  x ≠ end_ → es !! slot x = Some (Node v n) →
  pop x (StackPool (Vector es c r) f)
  = Some (n, StackPool (Vector (<[slot x := Node v f]> es) c r) x).
Proof.
  intros Hx Hl. unfold pop.
  rewrite (proj2 (empty_false x) Hx). unfold bind at 1.
  rewrite (next_read _ _ _ _ _ _ _ Hl). unfold bind at 1. simpl.
  unfold bind at 1. by rewrite (next_assign_live _ _ _ _ _ _ _ _ Hl).
Qed.

(** [pop] of the sentinel. *)
Lemma pop_end s : pop end_ s = Some (end_, s).
Proof. done. Qed.

(** [push] with a free node: the head of the free list is reused. *)
Lemma push_reuse es c r f v0 n0 v h :
  f ≠ end_ → es !! slot f = Some (Node v0 n0) →
  push v h (StackPool (Vector es c r) f)
  = Some (f, StackPool (Vector (<[slot f := Node v h]> es) c r) n0).
Proof.
  intros Hf Hl. unfold push, _push. unfold bind at 1. simpl.
  rewrite (proj2 (empty_false f) Hf). unfold bind at 1.
  rewrite (next_read _ _ _ _ _ _ _ Hl). unfold bind at 1. simpl.
  unfold bind at 1. rewrite (value_assign_live _ _ _ _ _ _ _ _ Hl).
  unfold bind at 1. erewrite next_assign_live.
  - simpl. by rewrite list_insert_insert_eq.
  - apply list_lookup_insert_eq. by eapply lookup_lt_Some.
Qed.

(** [push] without a free node: the storage grows by one node and its
    size, narrowed to the index type, is returned. *)
Lemma push_grow es c r v h :
  push v h (StackPool (Vector es c r) end_)
  = Some (static_cast (S (length es)),
          StackPool (vec_emplace_back (Node v h) (Vector es c r)) end_).
Proof.
  unfold push, _push, bind, emplace_back, size, vec_size. simpl.
  unfold vec_emplace_back. simpl.
  destruct (decide _); simpl; by rewrite length_app, Nat.add_1_r.
Qed.

Lemma emplace_back_elems (nd : node_t T) (v : vector (node_t T)) :
  elems (vec_emplace_back nd v) = elems v ++ [nd].
Proof. unfold vec_emplace_back. by destruct (decide _). Qed.

(** *** The loops *)

Lemma separate_nil_r l : separate l [].
Proof. intros y _ Hy. by apply elem_of_nil in Hy. Qed.

Lemma separate_nil_l l : separate [] l.
Proof. intros y Hy _. by apply elem_of_nil in Hy. Qed.

(** The traversal of a chain yields its values and leaves the pool as
    it is. *)
Lemma iterate_chain es c r f this h0 x l :
  chain es x l → ∀ fuel, (length l ≤ fuel)%nat →
  iterate fuel this h0 (Iterator this x) (StackPool (Vector es c r) f)
  = Some (l.*2, StackPool (Vector es c r) f).
Proof.
  induction 1 as [|x v n l Hx Hl Hc IH]; intros fuel Hfuel.
  - by destruct fuel.
  - destruct fuel as [|fuel]; [simpl in Hfuel; lia |].
    simpl in Hfuel. simpl.
    unfold iterator_neq, iterator_eq, end_it. simpl.
    replace (x =? end_) with false
      by (symmetry; apply Z.eqb_neq; unfold end_; lia).
    simpl. unfold bind at 1, deref. simpl.
    rewrite (value_read _ _ _ _ _ _ _ Hl).
    unfold bind at 1, pre_inc. unfold bind at 1. simpl.
    rewrite (next_read _ _ _ _ _ _ _ Hl). simpl.
    unfold bind at 1. rewrite IH by lia. done.
Qed.

(** [free_stack] on a chain: it returns the sentinel, is the same as as
    many calls of [pop] as the chain has nodes, keeps the storage size,
    puts the nodes of the chain onto the free list in reverse order and
    leaves every chain that shares no node with it as it is. *)
Lemma free_stack_chain l : ∀ es c r f x fuel,
  chain es x l → (length l ≤ fuel)%nat →
  ∃ es',
    free_stack fuel x (StackPool (Vector es c r) f)
    = Some (end_, StackPool (Vector es' c r) (default f (last l.*1)))
    ∧ pop_n (length l) x (StackPool (Vector es c r) f)
      = Some (end_, StackPool (Vector es' c r) (default f (last l.*1)))
    ∧ length es' = length es
    ∧ (∀ fl, chain es f fl → separate l fl →
         chain es' (default f (last l.*1)) (reverse l ++ fl))
    ∧ (∀ y m, chain es y m → separate m l → chain es' y m).
Proof.
  induction l as [|[x0 v] l IH]; intros es c r f x fuel Hc Hfuel.
  - inversion Hc; subst. exists es. simpl.
    split_and!; [by destruct fuel | done | done | by intros | by intros].
  - inversion Hc as [|x' v' n l0 Hx Hl Hc0]; subst x' v' l0 x0.
    destruct fuel as [|fuel]; [simpl in Hfuel; lia |].
    simpl in Hfuel.
    assert (Hne : x ≠ end_) by (unfold end_; lia).
    pose proof (chain_head_fresh _ _ _ _ Hc) as Hfresh.
    assert (Hc1 : chain (<[slot x := Node v f]> es) n l)
      by (by apply chain_insert).
    destruct (IH _ c r x _ fuel Hc1 ltac:(lia))
      as (es' & Hfree & Hpop & Hlen & Hfl & Hframe).
    assert (Hlast : default f (last ((x, v) :: l).*1) = default x (last l.*1)).
    { rewrite fmap_cons, last_cons. simpl. by destruct (last l.*1). }
    rewrite Hlast. exists es'. split_and!.
    + simpl. rewrite (proj2 (empty_false x) Hne). unfold bind.
      by rewrite (pop_live _ _ _ _ _ _ _ Hne Hl).
    + simpl. unfold bind. by rewrite (pop_live _ _ _ _ _ _ _ Hne Hl).
    + by rewrite Hlen, length_insert.
    + intros fl Hcf Hsep.
      rewrite reverse_cons, <- app_assoc. simpl.
      apply Hfl.
      * econstructor; [done | |].
        -- apply list_lookup_insert_eq. by eapply lookup_lt_Some.
        -- apply chain_insert; [done | done |].
           intros Hin. apply (Hsep x); [simpl; left | done].
      * intros y Hy Hy'. simpl in Hy'.
        apply elem_of_cons in Hy' as [-> | Hy']; [done |].
        apply (Hsep y); [simpl; by right | done].
    + intros y m Hcm Hsep. apply Hframe.
      * apply chain_insert; [done | done |].
        intros Hin. apply (Hsep x); [done | simpl; left].
      * intros z Hz Hz'. apply (Hsep z); [done | simpl; by right].
Qed.

(** Fewer calls of [pop] than the chain has nodes do not reach the
    sentinel. *)
Lemma pop_n_chain l : ∀ es c r f x (j : nat),
  chain es x l → (j < length l)%nat →
  ∃ y s', pop_n j x (StackPool (Vector es c r) f) = Some (y, s')
          ∧ empty y = false.
Proof.
  induction l as [|[x0 v] l IH]; intros es c r f x j Hc Hj;
    [simpl in Hj; lia |].
  inversion Hc as [|x' v' n l0 Hx Hl Hc0]; subst x' v' l0 x0.
  assert (Hne : x ≠ end_) by (unfold end_; lia).
  destruct j as [|j].
  - eexists _, _. split; [done | by apply empty_false].
  - simpl in Hj. simpl. unfold bind.
    rewrite (pop_live _ _ _ _ _ _ _ Hne Hl).
    apply IH; [| lia].
    apply chain_insert; [done | done |].
    by eapply chain_head_fresh.
Qed.

(** A run of pushes onto one stack: the new nodes are put in front of
    the stack in reverse push order, the free list loses the nodes that
    were reused, and every chain that shares no node with the free list
    is left as it is. *)
Lemma push_all_chain vs : ∀ es c r f h l fl,
  chain es f fl → chain es h l → separate l fl →
  Z.of_nat (length es + (length vs - length fl)) < 2 ^ width →
  ∃ h' es' c' r' f' l',
    push_all vs h (StackPool (Vector es c r) f)
    = Some (h', StackPool (Vector es' c' r') f')
    ∧ chain es' h' (l' ++ l) ∧ l'.*2 = reverse vs
    ∧ chain es' f' (drop (length vs) fl)
    ∧ separate (l' ++ l) (drop (length vs) fl)
    ∧ (∀ y m, chain es y m → separate m fl → chain es' y m).
Proof.
  induction vs as [|v vs IH]; intros es c r f h l fl Hcf Hch Hsep Hroom.
  - exists h, es, c, r, f, []. simpl. rewrite drop_0. by split_and!.
  - simpl in Hroom. simpl push_all. unfold bind at 1.
    inversion Hcf as [|f0 v0 n0 fl0 Hf Hl Hc0]; subst.
    + (* the storage grows *)
      rewrite push_grow. simpl in Hroom.
      assert (Hcast : static_cast (S (length es)) = Z.of_nat (S (length es)))
        by (apply static_cast_small; lia).
      rewrite Hcast. set (x := Z.of_nat (S (length es))).
      assert (Hx : 0 < x < 2 ^ width) by lia.
      assert (Hslot : slot x = length es) by (rewrite slot_live; lia).
      assert (∃ c1 r1, vec_emplace_back (Node v h) (Vector es c r)
                       = Vector (es ++ [Node v h]) c1 r1) as (c1 & r1 & ->).
      { unfold vec_emplace_back. destruct (decide _); by eexists _, _. }
      destruct (IH (es ++ [Node v h]) c1 r1 end_ x ((x, v) :: l) [])
        as (h' & es' & c' & r' & f' & l' & Hrun & Hch' & Hvals & Hcf'
            & Hsep' & Hframe).
      * constructor.
      * econstructor; [done | | by apply chain_app].
        rewrite Hslot. by apply list_lookup_middle.
      * apply separate_nil_r.
      * rewrite length_app. simpl in *. lia.
      * exists h', es', c', r', f', (l' ++ [(x, v)]).
        rewrite drop_nil in *. rewrite <- app_assoc. simpl.
        split_and!; [done | done | | done | done |].
        -- rewrite fmap_app, Hvals, reverse_cons. done.
        -- intros y m Hcm _. apply Hframe; [by apply chain_app |].
           apply separate_nil_r.
    + (* the head of the free list is reused *)
      assert (Hne : f ≠ end_) by (unfold end_; lia).
      rewrite (push_reuse _ _ _ _ _ _ _ _ Hne Hl).
      pose proof (chain_head_fresh _ _ _ _ Hcf) as Hfresh.
      destruct (IH (<[slot f := Node v h]> es) c r n0 f ((f, v) :: l) fl0)
        as (h' & es' & c' & r' & f' & l' & Hrun & Hch' & Hvals & Hcf'
            & Hsep' & Hframe).
      * by apply chain_insert.
      * econstructor; [done | |].
        -- apply list_lookup_insert_eq. by eapply lookup_lt_Some.
        -- apply chain_insert; [done | done |].
           intros Hin. apply (Hsep f); [done | simpl; left].
      * intros y Hy Hy'. simpl in Hy.
        apply elem_of_cons in Hy as [-> | Hy]; [done |].
        apply (Hsep y); [done | simpl; by right].
      * rewrite length_insert. simpl in Hroom. lia.
      * exists h', es', c', r', f', (l' ++ [(f, v)]).
        rewrite <- app_assoc. simpl.
        split_and!; [done | done | | done | done |].
        -- rewrite fmap_app, Hvals, reverse_cons. done.
        -- intros y m Hcm Hsepm. apply Hframe.
           ++ apply chain_insert; [done | done |].
              intros Hin. apply (Hsepm f); [done | simpl; left].
           ++ intros z Hz Hz'. apply (Hsepm z); [done | simpl; by right].
Qed.

(** Pushes that find free nodes reuse them in the order of the free
    list; the storage keeps its size, its capacity and its place. *)
Lemma push_each_reuse ps : ∀ es c r f fl,
  chain es f fl → (length ps ≤ length fl)%nat →
  ∃ es' f',
    push_each ps (StackPool (Vector es c r) f)
    = Some ((take (length ps) fl).*1, StackPool (Vector es' c r) f')
    ∧ length es' = length es
    ∧ chain es' f' (drop (length ps) fl).
Proof.
  induction ps as [|[v h] ps IH]; intros es c r f fl Hcf Hlen.
  - exists es, f. simpl. rewrite drop_0. by split_and!.
  - inversion Hcf as [|f0 v0 n0 fl0 Hf Hl Hc0]; subst;
      [simpl in Hlen; lia |].
    simpl in Hlen.
    assert (Hne : f ≠ end_) by (unfold end_; lia).
    pose proof (chain_head_fresh _ _ _ _ Hcf) as Hfresh.
    destruct (IH (<[slot f := Node v h]> es) c r n0 fl0)
      as (es' & f' & Hrun & Hlen' & Hcf'); [by apply chain_insert | lia |].
    exists es', f'. simpl. unfold bind at 1.
    rewrite (push_reuse _ _ _ _ _ _ _ _ Hne Hl).
    unfold bind at 1. rewrite Hrun. simpl.
    split_and!; [done | by rewrite Hlen', length_insert | done].
Qed.

(** Pushes into reserved storage: with an empty free list and room for
    every new node within the capacity, the vector is not reallocated. *)
Lemma push_each_reserved ps : ∀ es c r,
  (length es + length ps ≤ c)%nat →
  ∃ rs es',
    push_each ps (StackPool (Vector es c r) end_)
    = Some (rs, StackPool (Vector es' c r) end_)
    ∧ length es' = (length es + length ps)%nat
    ∧ length rs = length ps.
Proof.
  induction ps as [|[v h] ps IH]; intros es c r Hlen.
  - exists [], es. simpl. split_and!; [done | lia | done].
  - simpl in Hlen. simpl. unfold bind at 1. rewrite push_grow.
    unfold vec_emplace_back. simpl.
    rewrite decide_False by lia.
    destruct (IH (es ++ [Node v h]) c r) as (rs & es' & Hrun & Hlen' & Hrs).
    { rewrite length_app. simpl. lia. }
    unfold bind at 1. rewrite Hrun. simpl.
    eexists _, es'. split_and!; [done | | simpl; by rewrite Hrs].
    rewrite Hlen', length_app. simpl. lia.
Qed.

End Facts.

(** ** The properties of the specification *)

Section Properties.
Context {T : Type} `{Ix : Index} `{Al : Growth}.

Implicit Types (s : stack_pool T) (x h f : stack_type)
  (l fl : list (stack_type * T)).

Notation "'let*' x ':=' m 'in' k" := (bind m (λ x, k))
  (at level 10, x name, m at level 100, k at level 200, only parsing).

(** C1, as amended.  In a pool whose free list is a chain, values
    [v1, ..., vk] pushed in that order onto a stack obtained from
    [new_stack] are visited by the iteration from the last head in the
    order [vk, ..., v1], after which the end iterator is reached,
    provided the index type can address every node the pushes create
    (the storage stays below [2 ^ width] nodes). *)
Theorem push_all_lifo s fl (vs : list T) (fuel : nat) (this : positive) :
  free_list s fl →
  has_room_for (length vs) (length fl) s →
  (length vs ≤ fuel)%nat →
  ∃ h s',
    (let* h0 := new_stack in push_all vs h0) s = Some (h, s')
    ∧ to_list fuel this h s' = Some (reverse vs, s').
Proof.
  destruct s as [[es c r] f]. unfold free_list, has_room_for, vec_size.
  simpl. intros Hfl Hroom Hfuel.
  destruct (push_all_chain vs es c r f end_ [] fl Hfl (chain_end es)
              (separate_nil_l fl) Hroom)
    as (h' & es' & c' & r' & f' & l' & Hrun & Hch & Hvals & _).
  exists h', (StackPool (Vector es' c' r') f').
  split; [done |].
  rewrite app_nil_r in Hch. unfold to_list, begin.
  rewrite (iterate_chain _ _ _ _ _ _ _ _ Hch).
  - by rewrite Hvals.
  - rewrite <- (length_fmap snd), Hvals, length_reverse. done.
Qed.

(** C2, as amended.  In a pool whose free list is a chain and whose
    index type can address the node that [push] creates, [pop] on the
    handle returned by [push v h] returns [h]; the node it removes (the
    new head of the free list) is the one that was pushed, and it holds
    [v]. *)
Theorem pop_push s fl (v : T) h :
  free_list s fl → has_room s →
  ∃ r s1 s2,
    push v h s = Some (r, s1)
    ∧ value r s1 = Some (v, s1)
    ∧ pop r s1 = Some (h, s2)
    ∧ free_nodes s2 = r
    ∧ value r s2 = Some (v, s2).
Proof.
  destruct s as [[es c r0] f]. unfold free_list, has_room, vec_size.
  simpl. intros Hfl Hroom.
  inversion Hfl as [|f0 v0 n0 fl0 Hf Hl Hc0]; subst.
  - specialize (Hroom eq_refl).
    rewrite push_grow, static_cast_small by done.
    set (x := Z.of_nat (S (length es))).
    assert (Hx : 0 < x < 2 ^ width) by lia.
    assert (Hslot : slot x = length es) by (rewrite slot_live; lia).
    assert (∃ c1 r1, vec_emplace_back (Node v h) (Vector es c r0)
                     = Vector (es ++ [Node v h]) c1 r1) as (c1 & r1 & ->).
    { unfold vec_emplace_back. destruct (decide _); by eexists _, _. }
    assert (Hl : (es ++ [Node v h]) !! slot x = Some (Node v h))
      by (rewrite Hslot; by apply list_lookup_middle).
    assert (Hne : x ≠ end_) by (unfold end_; lia).
    eexists x, _, _. split_and!; [done | | by apply pop_live | done |].
    + by eapply value_read.
    + eapply value_read. apply list_lookup_insert_eq.
      by eapply lookup_lt_Some.
  - assert (Hne : f ≠ end_) by (unfold end_; lia).
    pose proof (lookup_lt_Some _ _ _ Hl) as Hlt.
    rewrite (push_reuse _ _ _ _ _ _ _ _ Hne Hl).
    assert (Hl' : <[slot f := Node v h]> es !! slot f = Some (Node v h))
      by (by apply list_lookup_insert_eq).
    eexists f, _, _. split_and!; [done | | by apply pop_live | done |].
    + by eapply value_read.
    + eapply value_read. apply list_lookup_insert_eq.
      by rewrite length_insert.
Qed.

(** C4.  [free_stack] on the head of a stack of [k] nodes returns the
    sentinel, for which [empty] is true; the capacity, the size and the
    place of the storage are unchanged and the free list grows by the
    nodes of the stack; result and final pool are those of [k] calls of
    [pop], and fewer than [k] calls of [pop] do not empty the stack. *)
Theorem free_stack_pops s h l (fuel : nat) :
  is_stack s h l → (length l ≤ fuel)%nat →
  ∃ s',
    free_stack fuel h s = Some (end_, s')
    ∧ empty end_ = true
    ∧ capacity s' = capacity s
    ∧ vec_size (pool s') = vec_size (pool s)
    ∧ relocations (pool s') = relocations (pool s)
    ∧ pop_n (length l) h s = Some (end_, s')
    ∧ (∀ j : nat, (j < length l)%nat →
         ∃ y sj, pop_n j h s = Some (y, sj) ∧ empty y = false)
    ∧ (∀ fl, free_list s fl → separate l fl → free_list s' (reverse l ++ fl)).
Proof.
  destruct s as [[es c r] f]. unfold is_stack, free_list, capacity, vec_size.
  simpl. intros Hch Hfuel.
  destruct (free_stack_chain l es c r f h fuel Hch Hfuel)
    as (es' & Hfree & Hpop & Hlen & Hfl & _).
  eexists.
  split_and!; [exact Hfree | done | done | done | done | done | | done].
  intros j Hj. by eapply pop_n_chain.
Qed.

(** C5.  After [free_stack] on a stack of [k] nodes, the next [k]
    pushes, with any values and onto any heads, return exactly the [k]
    freed nodes (last freed first); the storage does not grow: its
    size, its capacity and its place are those before the calls, and
    the free list is again the one before [free_stack]. *)
Theorem free_stack_recycles s h l fl (fuel : nat)
    (ps : list (T * stack_type)) :
  is_stack s h l → free_list s fl → separate l fl →
  (length l ≤ fuel)%nat → length ps = length l →
  ∃ s1 s2,
    free_stack fuel h s = Some (end_, s1)
    ∧ push_each ps s1 = Some ((reverse l).*1, s2)
    ∧ vec_size (pool s2) = vec_size (pool s)
    ∧ capacity s2 = capacity s
    ∧ relocations (pool s2) = relocations (pool s)
    ∧ free_list s2 fl.
Proof.
  destruct s as [[es c r] f]. unfold is_stack, free_list, capacity, vec_size.
  simpl. intros Hch Hfl Hsep Hfuel Hps.
  destruct (free_stack_chain l es c r f h fuel Hch Hfuel)
    as (es1 & Hfree & _ & Hlen1 & Hfl1 & _).
  specialize (Hfl1 fl Hfl Hsep).
  assert (Hps' : length ps = length (reverse l)) by (by rewrite length_reverse).
  destruct (push_each_reuse ps es1 c r _ _ Hfl1)
    as (es2 & f2 & Hrun & Hlen2 & Hfl2).
  { rewrite length_app. lia. }
  rewrite Hps', take_app_length in Hrun.
  rewrite Hps', drop_app_length in Hfl2.
  eexists _, _. split_and!; [exact Hfree | exact Hrun | | done | done | done].
  simpl. congruence.
Qed.

(** C6.  On a pool made by the default constructor, [reserve n]
    followed by at most [n] pushes moves the storage only in [reserve]:
    the pushes cause no reallocation and the capacity stays the one
    [reserve] granted.  On every pool, [reserve] changes neither the
    nodes nor the free list, so every handle reads as before and every
    chain is the chain it was; the capacity does not shrink and is at
    least [n] afterwards. *)
Theorem reserve_then_push (n : nat) :
  (∀ ps : list (T * stack_type), (length ps ≤ n)%nat →
     ∃ s1 rs s2,
       reserve n stack_pool_default = Some (tt, s1)
       ∧ push_each ps s1 = Some (rs, s2)
       ∧ relocations (pool s2) = relocations (pool s1)
       ∧ capacity s2 = capacity s1
       ∧ vec_size (pool s2) = length ps)
  ∧ (∀ s, ∃ s',
       reserve n s = Some (tt, s')
       ∧ elems (pool s') = elems (pool s)
       ∧ free_nodes s' = free_nodes s
       ∧ (capacity s ≤ capacity s')%nat
       ∧ (n ≤ capacity s')%nat
       ∧ (∀ x, option_map fst (value x s') = option_map fst (value x s))
       ∧ (∀ x, option_map fst (next x s') = option_map fst (next x s))
       ∧ (∀ x l, is_stack s' x l ↔ is_stack s x l)).
Proof.
  split.
  - intros ps Hlen. unfold reserve, stack_pool_default, vec_reserve. simpl.
    destruct (decide (0 < n)%nat) as [Hn | Hn].
    + pose proof (fit_ge n) as Hfit.
      destruct (push_each_reserved ps [] (fit n) 1)
        as (rs & es' & Hrun & Hlen' & _); [simpl; lia |].
      eexists _, rs, _. split_and!; [done | exact Hrun | done | done |].
      unfold vec_size. simpl. by rewrite Hlen'.
    + assert (ps = []) as -> by (destruct ps; [done | simpl in Hlen; lia]).
      eexists _, [], _. by split_and!.
  - intros [[es c r] f]. unfold reserve, vec_reserve, capacity, is_stack.
    simpl. pose proof (fit_ge n) as Hfit.
    destruct (decide (c < n)%nat) as [Hn | Hn]; simpl;
      (eexists; split_and!; [done | done | done | simpl; lia | simpl; lia
                           | | | done]);
      intros x; unfold value, next, bind, node, vec_get; simpl;
      by destruct (es !! slot x).
Qed.

(** C7, as amended.  In a pool whose free list is a chain, whose nodes
    all have a handle and whose index type can address the node that
    [push] creates, the handle [r] returned by [push v h] is 1-based: it
    lies between 1 and the size of the storage, the node pushed is at
    position [r - 1] of the storage and [node r] reads it; when the
    storage grows, [r] is its new size; the sentinel resolves to no
    slot. *)
Theorem push_handle_one_based s fl (v : T) h :
  free_list s fl → addressable s → has_room s →
  ∃ r s',
    push v h s = Some (r, s')
    ∧ 0 < r <= Z.of_nat (vec_size (pool s'))
    ∧ slot r = Z.to_nat (r - 1)
    ∧ vec_get (pool s') (Z.to_nat (r - 1)) = Some (Node v h)
    ∧ node r s' = Some (Node v h, s')
    ∧ (free_nodes s = end_ → r = Z.of_nat (vec_size (pool s')))
    ∧ node end_ s' = None.
Proof.
  destruct s as [[es c r0] f].
  unfold free_list, addressable, has_room, vec_size.
  simpl. intros Hfl Haddr Hroom.
  pose proof pow_width_le as Hpow.
  inversion Hfl as [|f0 v0 n0 fl0 Hf Hl Hc0]; subst.
  - specialize (Hroom eq_refl).
    rewrite push_grow, static_cast_small by done.
    set (x := Z.of_nat (S (length es))).
    assert (Hx : 0 < x < 2 ^ width) by lia.
    assert (Hslot : slot x = length es) by (rewrite slot_live; lia).
    assert (∃ c1 r1, vec_emplace_back (Node v h) (Vector es c r0)
                     = Vector (es ++ [Node v h]) c1 r1) as (c1 & r1 & ->).
    { unfold vec_emplace_back. destruct (decide _); by eexists _, _. }
    assert (Hl : (es ++ [Node v h]) !! slot x = Some (Node v h))
      by (rewrite Hslot; by apply list_lookup_middle).
    eexists x, _. unfold vec_get. simpl.
    split_and!; [done | lia | | by apply slot_live | | by eapply node_read | | ];
      simpl.
    + rewrite length_app. simpl. lia.
    + by rewrite <- (slot_live x).
    + intros _. rewrite length_app. simpl. lia.
    + unfold node, vec_get. simpl. rewrite slot_end.
      rewrite lookup_ge_None_2; [done |]. rewrite length_app. simpl. lia.
  - assert (Hne : f ≠ end_) by (unfold end_; lia).
    pose proof (lookup_lt_Some _ _ _ Hl) as Hlt.
    rewrite (push_reuse _ _ _ _ _ _ _ _ Hne Hl).
    assert (Hl' : <[slot f := Node v h]> es !! slot f = Some (Node v h))
      by (by apply list_lookup_insert_eq).
    eexists f, _. unfold vec_get. simpl.
    split_and!; [done | lia | | by apply slot_live | | by eapply node_read | done | ];
      simpl.
    + rewrite length_insert. rewrite slot_live in Hlt by done. lia.
    + by rewrite <- (slot_live f).
    + unfold node, vec_get. simpl. rewrite slot_end.
      rewrite lookup_ge_None_2; [done |]. rewrite length_insert. lia.
Qed.

(** C8.  Two iterators over the same pool compare equal with [==]
    exactly when they hold the same current handle, that is, exactly
    when they are the same iterator; [!=] is the negation of [==]; an
    iterator equals the end iterator exactly when its current handle is
    the sentinel. *)
Theorem iterator_eq_current (a b : _iterator) (this : positive) h :
  it_pool a = it_pool b →
  (iterator_eq a b = true ↔ current a = current b)
  ∧ (iterator_eq a b = true ↔ a = b)
  ∧ iterator_neq a b = negb (iterator_eq a b)
  ∧ (iterator_eq a (end_it this h) = true ↔ current a = end_).
Proof.
  destruct a as [pa ca], b as [pb cb]. unfold iterator_eq, iterator_neq.
  simpl. intros ->. split_and!; [apply Z.eqb_eq | | done | apply Z.eqb_eq].
  rewrite Z.eqb_eq. split; [by intros -> | by intros [= ->]].
Qed.

(** C9, as amended.  When the index type can address the node that
    [push] creates (a freed node is reused, or the storage, one node
    longer, has fewer than [2 ^ width] nodes), no handle returned by
    [push] is the sentinel; and [push] does return a handle when the
    free list is a chain. *)
Theorem push_not_sentinel s (v : T) h :
  has_room s →
  (∀ r s', push v h s = Some (r, s') → empty r = false)
  ∧ (∀ fl, free_list s fl → ∃ r s', push v h s = Some (r, s')).
Proof.
  destruct s as [[es c r0] f]. unfold free_list, has_room, vec_size.
  simpl. intros Hroom. split.
  - intros r s'. destruct (decide (f = end_)) as [-> | Hne].
    + specialize (Hroom eq_refl).
      rewrite push_grow, static_cast_small by done.
      intros [= <- _]. apply empty_false. unfold end_. lia.
    + unfold push, _push. unfold bind at 1. simpl.
      rewrite (proj2 (empty_false f) Hne).
      unfold bind at 1. destruct (next f _) as [[nx s0]|]; [|done].
      unfold bind at 1. simpl.
      unfold bind at 1. destruct (value_assign f v _) as [[[] s1]|]; [|done].
      unfold bind at 1. destruct (next_assign f h _) as [[[] s2]|]; [|done].
      intros [= <- _]. by apply empty_false.
  - intros fl Hfl. inversion Hfl as [|f0 v0 n0 fl0 Hf Hl Hc0]; subst.
    + rewrite push_grow. by eexists _, _.
    + assert (Hne : f ≠ end_) by (unfold end_; lia).
      rewrite (push_reuse _ _ _ _ _ _ _ _ Hne Hl). by eexists _, _.
Qed.

(** C10.  The free list is a stack: [pop] puts the node it removes in
    front of the free list, and the next [push] returns that node and
    takes it off the free list again; after [free_stack] on a chain
    [n1 -> ... -> nk] the free list starts with [nk] and the next [push]
    returns [nk]. *)
Theorem free_list_lifo s fl :
  free_list s fl →
  (∀ x (v : T) (n : stack_type),
     0 < x < 2 ^ width →
     vec_get (pool s) (slot x) = Some (Node v n) →
     x ∉ fl.*1 →
     ∃ s1,
       pop x s = Some (n, s1)
       ∧ free_list s1 ((x, v) :: fl)
       ∧ ∀ (v' : T) (h' : stack_type), ∃ s2,
           push v' h' s1 = Some (x, s2) ∧ free_list s2 fl)
  ∧ (∀ h l (nk : stack_type) (vk : T) (fuel : nat),
       is_stack s h (l ++ [(nk, vk)]) →
       separate (l ++ [(nk, vk)]) fl →
       (S (length l) ≤ fuel)%nat →
       ∃ s1,
         free_stack fuel h s = Some (end_, s1)
         ∧ free_list s1 ((nk, vk) :: reverse l ++ fl)
         ∧ ∀ (v' : T) (h' : stack_type), ∃ s2,
             push v' h' s1 = Some (nk, s2)
             ∧ free_list s2 (reverse l ++ fl)).
Proof.
  destruct s as [[es c r] f]. unfold free_list, is_stack, vec_get.
  simpl. intros Hfl.
  assert (Hpush : ∀ es1 x v m (v' : T) (h' : stack_type),
    chain es1 x ((x, v) :: m) →
    ∃ s2, push v' h' (StackPool (Vector es1 c r) x) = Some (x, s2)
          ∧ chain (elems (pool s2)) (free_nodes s2) m).
  { intros es1 x v m v' h' Hc.
    pose proof (chain_head_fresh _ _ _ _ Hc) as Hfresh.
    inversion Hc as [|x0 v0 n0 m0 Hx Hl Hc0]; subst.
    assert (Hne : x ≠ end_) by (unfold end_; lia).
    rewrite (push_reuse _ _ _ _ _ _ _ _ Hne Hl).
    eexists. split; [done |]. simpl. by apply chain_insert. }
  split.
  - intros x v n Hx Hl Hfresh.
    assert (Hne : x ≠ end_) by (unfold end_; lia).
    rewrite (pop_live _ _ _ _ _ _ _ Hne Hl).
    assert (Hc : chain (<[slot x := Node v f]> es) x ((x, v) :: fl)).
    { econstructor; [done | | by apply chain_insert].
      apply list_lookup_insert_eq. by eapply lookup_lt_Some. }
    eexists. split_and!; [done | done |].
    intros v' h'. simpl. by eapply Hpush.
  - intros h l nk vk fuel Hch Hsep Hfuel.
    destruct (free_stack_chain _ es c r f h fuel Hch)
      as (es1 & Hfree & _ & _ & Hfl1 & _).
    { rewrite length_app. simpl. lia. }
    specialize (Hfl1 fl Hfl Hsep).
    rewrite fmap_app, fmap_cons, fmap_nil, last_snoc in Hfree, Hfl1.
    simpl in Hfree, Hfl1.
    rewrite reverse_app in Hfl1. simpl in Hfl1.
    eexists. split_and!; [exact Hfree | done |].
    intros v' h'. simpl. by eapply Hpush.
Qed.

End Properties.

(** ** Who throws *)

Section Exceptions.
Context {T : Type} `{Ix : Index} `{Al : Growth} `{Lm : Limits}.

Implicit Types (s : stack_pool T) (x h f : stack_type).

Lemma lift_never_throws {R} (m : M T R) s (e : exception) s' :
  lift m s ≠ Throws e s'.
Proof. unfold lift. by destruct (m s) as [[r s0]|]. Qed.

Lemma lift_returns {R} (m : M T R) s (r : R) s' :
  lift m s = Returns r s' ↔ m s = Some (r, s').
Proof.
  unfold lift. destruct (m s) as [[r0 s0]|]; split; intros H;
    by (injection H as -> ->) || discriminate H.
Qed.

(** [reserve] throws exactly when more than [max_size()] nodes are asked
    for, and leaves the pool as it is then; otherwise it is the [reserve]
    of the monad [M]. *)
Lemma reserve_x_cases (n : nat) s :
  (reserve_x n s = Throws length_error s ↔ (max_size < n)%nat)
  ∧ ((n ≤ max_size)%nat → reserve_x n s = lift (reserve n) s)
  ∧ (∀ e s', reserve_x n s = Throws e s' → s' = s).
Proof.
  unfold reserve_x, vec_reserve_x, lift, reserve.
  destruct (decide (max_size < n)%nat) as [Hn | Hn]; split_and!.
  - done.
  - lia.
  - by intros e s' [= _ <-].
  - split; [discriminate | done].
  - done.
  - discriminate.
Qed.

(** [push] throws exactly when it has to grow a full storage of
    [max_size()] nodes, and leaves the pool as it is then; otherwise it is
    the [push] of the monad [M]. *)
Lemma push_x_cases (v : T) h s :
  (push_x v h s = Throws length_error s
   ↔ free_nodes s = end_
     ∧ (capacity s ≤ vec_size (pool s))%nat
     ∧ (max_size ≤ vec_size (pool s))%nat)
  ∧ (¬ (free_nodes s = end_
        ∧ (capacity s ≤ vec_size (pool s))%nat
        ∧ (max_size ≤ vec_size (pool s))%nat) →
     push_x v h s = lift (push v h) s)
  ∧ (∀ e s', push_x v h s = Throws e s' → s' = s).
Proof.
  destruct s as [[es c r] f].
  unfold push_x, _push_x, push, _push, capacity, vec_capacity, vec_size,
    bind_x, bind, lift, get_free_nodes, set_free_nodes, ret_x, ret,
    emplace_back_x, emplace_back, vec_emplace_back_x, size.
  simpl. destruct (empty f) eqn:Hf.
  - apply empty_true in Hf as ->.
    destruct (decide _) as [Hfull | Hfull]; simpl.
    + split_and!; [done | by intros [] | by intros e s' [= _ <-]].
    + split_and!; [| done | discriminate].
      split; [discriminate | intros (_ & ? & ?); by destruct Hfull].
  - apply empty_false in Hf.
    destruct (next f _) as [[nx s0]|]; simpl.
    + destruct (value_assign f v _) as [[[] s1]|]; simpl.
      * destruct (next_assign f h _) as [[[] s2]|]; simpl;
          (split_and!; [split; [discriminate | by intros [? _]]
                       | done | discriminate]).
      * split_and!; [split; [discriminate | by intros [? _]]
                    | done | discriminate].
    + split_and!; [split; [discriminate | by intros [? _]]
                  | done | discriminate].
Qed.


End Exceptions.

(** ** Ownership of the nodes *)

Section Ownership.
Context {T : Type} `{Ix : Index} `{Al : Growth}.

Implicit Types (s : stack_pool T) (es : list (node_t T)) (x h f : stack_type)
  (l m fl : list (stack_type * T))
  (stacks : list (stack_type * list (stack_type * T))).

Lemma separate_sym l m : separate l m → separate m l.
Proof. intros H y Hy Hy'. by apply (H y). Qed.

Lemma separate_cons_l x (v : T) l m :
  separate ((x, v) :: l) m ↔ (x ∉ m.*1) ∧ separate l m.
Proof.
  split.
  - intros H. split.
    + intros Hin. apply (H x); [simpl; left | done].
    + intros y Hy Hy'. apply (H y); [simpl; by right | done].
  - intros [Hx H] y Hy Hy'. simpl in Hy.
    apply elem_of_cons in Hy as [-> | Hy]; [done | by apply (H y)].
Qed.

Lemma separate_cons_r x (v : T) l m :
  separate l ((x, v) :: m) ↔ (x ∉ l.*1) ∧ separate l m.
Proof.
  split.
  - intros H. apply separate_sym in H. apply separate_cons_l in H as [? H].
    split; [done | by apply separate_sym].
  - intros [Hx H]. apply separate_sym, separate_cons_l.
    split; [done | by apply separate_sym].
Qed.

Lemma separate_app_r l m m' :
  separate l (m ++ m') ↔ separate l m ∧ separate l m'.
Proof.
  unfold separate. setoid_rewrite fmap_app. setoid_rewrite elem_of_app.
  split.
  - intros H. split; intros y Hy Hy'; apply (H y); auto.
  - intros [H H'] y Hy [Hy' | Hy']; [by apply (H y) | by apply (H' y)].
Qed.

Lemma chain_handle_le es x l y :
  chain es x l → y ∈ l.*1 → 0 < y <= Z.of_nat (length es).
Proof.
  intros Hc Hy. destruct (chain_member_live _ _ _ _ Hc Hy) as [Hr Hlt].
  rewrite slot_live in Hlt by done. lia.
Qed.

(** The storage one node longer: the new node becomes the head of the
    chain it is linked to, every other chain stays. *)
Lemma chain_grown es h l (v : T) :
  chain es h l → Z.of_nat (S (length es)) < 2 ^ width →
  chain (es ++ [Node v h]) (Z.of_nat (S (length es)))
        ((Z.of_nat (S (length es)), v) :: l).
Proof.
  intros Hc Hroom. econstructor; [lia | | by apply chain_app].
  rewrite slot_live by lia.
  replace (Z.to_nat (Z.of_nat (S (length es)) - 1)) with (length es) by lia.
  by apply list_lookup_middle.
Qed.

(** [push] onto the stack [i] of an owned pool: the stack gets the new
    node in front, the free list loses its head if it has one, and the
    pool is owned as before. *)
Lemma push_owns s stacks fl (i : nat) h l (v : T) :
  owns s stacks fl → stacks !! i = Some (h, l) → has_room s →
  ∃ r s',
    push v h s = Some (r, s')
    ∧ (vec_size (pool s') ≤ S (vec_size (pool s)))%nat
    ∧ owns s' (<[i := (r, (r, v) :: l)]> stacks) (tail fl).
Proof.
  destruct s as [[es c r0] f].
  unfold owns, addressable, free_list, is_stack, has_room, vec_size. simpl.
  intros (Haddr & Hfl & Hst & Hpair & Hcov) Hi Hroom.
  pose proof (lookup_lt_Some _ _ _ Hi) as Hilt.
  destruct (Hst _ _ _ Hi) as [Hch Hsepl].
  inversion Hfl as [|f0 v0 n0 fl0 Hf Hl Hc0]; subst.
  - (* the storage grows *)
    specialize (Hroom eq_refl).
    rewrite push_grow, static_cast_small by done.
    set (x := Z.of_nat (S (length es))).
    assert (Hfresh : ∀ (j : nat) hj lj, stacks !! j = Some (hj, lj) → x ∉ lj.*1).
    { intros j hj lj Hj Hin. destruct (Hst _ _ _ Hj) as [Hcj _].
      pose proof (chain_handle_le _ _ _ _ Hcj Hin). lia. }
    assert (∃ c1 r1, vec_emplace_back (Node v h) (Vector es c r0)
                     = Vector (es ++ [Node v h]) c1 r1) as (c1 & r1 & ->).
    { unfold vec_emplace_back. destruct (decide _); by eexists _, _. }
    eexists x, _. split; [done |]. simpl.
    split; [rewrite length_app; simpl; lia |].
    split_and!.
    + rewrite length_app. simpl. lia.
    + constructor.
    + intros j hj lj Hj.
      apply list_lookup_insert_Some in Hj as [(-> & [= <- <-] & _) | [Hne Hj]].
      * split; [by apply chain_grown | apply separate_nil_r].
      * destruct (Hst _ _ _ Hj) as [Hcj _].
        split; [by apply chain_app | apply separate_nil_r].
    + intros j1 j2 h1 l1 h2 l2 Hne H1 H2.
      apply list_lookup_insert_Some in H1 as [(-> & [= <- <-] & _) | [Hne1 H1]];
        apply list_lookup_insert_Some in H2 as [(-> & [= <- <-] & _) | [Hne2 H2]].
      * done.
      * apply separate_cons_l. split; [by eapply Hfresh |].
        eapply Hpair; [exact Hne | eassumption ..].
      * apply separate_cons_r. split; [by eapply Hfresh |].
        eapply Hpair; [exact Hne | eassumption ..].
      * eapply Hpair; [exact Hne | eassumption ..].
    + intros y Hy. rewrite length_app in Hy. simpl in Hy. right.
      destruct (decide (y = x)) as [-> | Hyx].
      * exists i, x, ((x, v) :: l). split; [| simpl; left].
        by apply list_lookup_insert_eq.
      * destruct (Hcov y) as [Hin | (j & hj & lj & Hj & Hin)]; [lia | | ].
        -- by apply elem_of_nil in Hin.
        -- destruct (decide (j = i)) as [-> | Hji].
           ++ rewrite Hi in Hj. injection Hj as <- <-.
              exists i, x, ((x, v) :: l). split; [| simpl; by right].
              by apply list_lookup_insert_eq.
           ++ exists j, hj, lj. split; [| done].
              by rewrite list_lookup_insert_ne.
  - (* the head of the free list is reused *)
    assert (Hne : f ≠ end_) by (unfold end_; lia).
    rewrite (push_reuse _ _ _ _ _ _ _ _ Hne Hl).
    pose proof (chain_head_fresh _ _ _ _ Hfl) as Hfresh.
    assert (Hout : ∀ (j : nat) hj lj, stacks !! j = Some (hj, lj) → f ∉ lj.*1).
    { intros j hj lj Hj Hin. destruct (Hst _ _ _ Hj) as [_ Hsj].
      apply (Hsj f); [done | simpl; left]. }
    eexists f, _. split; [done |]. simpl.
    split; [rewrite length_insert; lia |].
    split_and!.
    + by rewrite length_insert.
    + by apply chain_insert.
    + intros j hj lj Hj.
      apply list_lookup_insert_Some in Hj as [(-> & [= <- <-] & _) | [Hnej Hj]].
      * split.
        -- econstructor; [done | |].
           ++ apply list_lookup_insert_eq. by eapply lookup_lt_Some.
           ++ apply chain_insert; [done | done | by eapply Hout].
        -- apply separate_cons_l. split; [done |].
           by apply separate_cons_r in Hsepl as [_ ?].
      * destruct (Hst _ _ _ Hj) as [Hcj Hsj]. split.
        -- apply chain_insert; [done | done | by eapply Hout].
        -- by apply separate_cons_r in Hsj as [_ ?].
    + intros j1 j2 h1 l1 h2 l2 Hne12 H1 H2.
      apply list_lookup_insert_Some in H1 as [(-> & [= <- <-] & _) | [Hne1 H1]];
        apply list_lookup_insert_Some in H2 as [(-> & [= <- <-] & _) | [Hne2 H2]].
      * done.
      * apply separate_cons_l. split; [by eapply Hout |].
        eapply Hpair; [exact Hne12 | eassumption ..].
      * apply separate_cons_r. split; [by eapply Hout |].
        eapply Hpair; [exact Hne12 | eassumption ..].
      * eapply Hpair; [exact Hne12 | eassumption ..].
    + intros y Hy. rewrite length_insert in Hy.
      destruct (Hcov y Hy) as [Hin | (j & hj & lj & Hj & Hin)].
      * simpl in Hin. apply elem_of_cons in Hin as [-> | Hin]; [| by left].
        right. exists i, f, ((f, v) :: l). split; [| simpl; left].
        by apply list_lookup_insert_eq.
      * right. destruct (decide (j = i)) as [-> | Hji].
        -- rewrite Hi in Hj. injection Hj as <- <-.
           exists i, f, ((f, v) :: l). split; [| simpl; by right].
           by apply list_lookup_insert_eq.
        -- exists j, hj, lj. split; [| done].
           by rewrite list_lookup_insert_ne.
Qed.

(** [pop] on the head of the stack [i] of an owned pool: the stack loses
    its first node, which becomes the head of the free list, and the pool
    is owned as before. *)
Lemma pop_owns s stacks fl (i : nat) h (v : T) l :
  owns s stacks fl → stacks !! i = Some (h, (h, v) :: l) →
  ∃ n s',
    pop h s = Some (n, s')
    ∧ vec_size (pool s') = vec_size (pool s)
    ∧ owns s' (<[i := (n, l)]> stacks) ((h, v) :: fl).
Proof.
  destruct s as [[es c r0] f].
  unfold owns, addressable, free_list, is_stack, vec_size. simpl.
  intros (Haddr & Hfl & Hst & Hpair & Hcov) Hi.
  pose proof (lookup_lt_Some _ _ _ Hi) as Hilt.
  destruct (Hst _ _ _ Hi) as [Hch Hsepl].
  pose proof (chain_head_fresh _ _ _ _ Hch) as Hfresh.
  apply separate_cons_l in Hsepl as [Hhfl Hsepl].
  inversion Hch as [|x' v' n l0 Hx Hl Hc0]; subst.
  assert (Hne : h ≠ end_) by (unfold end_; lia).
  assert (Hout : ∀ (j : nat) hj lj,
            j ≠ i → stacks !! j = Some (hj, lj) → h ∉ lj.*1).
  { intros j hj lj Hji Hj Hin.
    apply (Hpair j i _ _ _ _ Hji Hj Hi h); [done | simpl; left]. }
  rewrite (pop_live _ _ _ _ _ _ _ Hne Hl).
  eexists n, _. split; [done |]. simpl.
  split; [by rewrite length_insert |].
  split_and!.
  - by rewrite length_insert.
  - econstructor; [done | | by apply chain_insert].
    apply list_lookup_insert_eq. by eapply lookup_lt_Some.
  - intros j hj lj Hj.
    apply list_lookup_insert_Some in Hj as [(-> & [= <- <-] & _) | [Hnej Hj]].
    + split; [by apply chain_insert |].
      apply separate_cons_r. by split.
    + destruct (Hst _ _ _ Hj) as [Hcj Hsj]. split.
      * apply chain_insert; [done | done |]. eapply Hout; [| done]. done.
      * apply separate_cons_r. split; [| done]. eapply Hout; [| done]. done.
  - intros j1 j2 h1 l1 h2 l2 Hne12 H1 H2.
    apply list_lookup_insert_Some in H1 as [(-> & [= <- <-] & _) | [Hne1 H1]];
      apply list_lookup_insert_Some in H2 as [(-> & [= <- <-] & _) | [Hne2 H2]].
    + done.
    + assert (Hs : separate ((h, v) :: l) l2)
        by (eapply Hpair; [exact Hne12 | eassumption ..]).
      by apply separate_cons_l in Hs as [_ ?].
    + assert (Hs : separate l1 ((h, v) :: l))
        by (eapply Hpair; [exact Hne12 | eassumption ..]).
      by apply separate_cons_r in Hs as [_ ?].
    + eapply Hpair; [exact Hne12 | eassumption ..].
  - intros y Hy. rewrite length_insert in Hy.
    destruct (Hcov y Hy) as [Hin | (j & hj & lj & Hj & Hin)].
    + left. simpl. by right.
    + destruct (decide (j = i)) as [-> | Hji].
      * rewrite Hi in Hj. injection Hj as <- <-. simpl in Hin.
        apply elem_of_cons in Hin as [-> | Hin]; [left; simpl; left |].
        right. exists i, n, l. split; [| done].
        by apply list_lookup_insert_eq.
      * right. exists j, hj, lj. split; [| done].
        by rewrite list_lookup_insert_ne.
Qed.

(** [free_stack] on the stack [i] of an owned pool: the stack becomes
    empty, its nodes go to the free list, last one first, and the pool is
    owned as before. *)
Lemma free_stack_owns l : ∀ s stacks fl (i : nat) h (fuel : nat),
  owns s stacks fl → stacks !! i = Some (h, l) → (length l ≤ fuel)%nat →
  ∃ s',
    free_stack fuel h s = Some (end_, s')
    ∧ vec_size (pool s') = vec_size (pool s)
    ∧ owns s' (<[i := (end_, [])]> stacks) (reverse l ++ fl).
Proof.
  induction l as [|[x v] l IH]; intros s stacks fl i h fuel Hown Hi Hfuel.
  - destruct Hown as (Haddr & Hfl & Hst & Hpair & Hcov).
    destruct (Hst _ _ _ Hi) as [Hch _].
    inversion Hch; subst.
    exists s. split; [by destruct fuel |]. split; [done |].
    rewrite list_insert_id by done. by split_and!.
  - assert (x = h) as ->.
    { destruct Hown as (_ & _ & Hst & _). destruct (Hst _ _ _ Hi) as [Hch _].
      by inversion Hch. }
    destruct fuel as [|fuel]; [simpl in Hfuel; lia |]. simpl in Hfuel.
    destruct (pop_owns _ _ _ _ _ _ _ Hown Hi) as (n & s1 & Hpop & Hsz1 & Hown1).
    assert (Hne : h ≠ end_).
    { destruct Hown as (_ & _ & Hst & _). destruct (Hst _ _ _ Hi) as [Hch _].
      inversion Hch; subst. unfold end_. lia. }
    destruct (IH s1 _ _ i n fuel Hown1) as (s' & Hfree & Hsz' & Hown').
    + apply list_lookup_insert_eq. by eapply lookup_lt_Some.
    + lia.
    + exists s'. split_and!.
      * simpl. rewrite (proj2 (empty_false h) Hne). unfold bind.
        by rewrite Hpop.
      * congruence.
      * rewrite list_insert_insert_eq in Hown'.
        by rewrite reverse_cons, <- app_assoc.
Qed.

(** A pool made by a constructor owns no node; [reserve] and [new_stack]
    keep an owned pool owned. *)
Lemma default_owns : owns (stack_pool_default (T := T)) [] [].
Proof.
  unfold owns, addressable, free_list, stack_pool_default, vec_size. simpl.
  split_and!.
  - apply pow_width_pos.
  - constructor.
  - intros i h l Hi. by rewrite lookup_nil in Hi.
  - intros i j hi li hj lj _ Hi. by rewrite lookup_nil in Hi.
  - intros x Hx. lia.
Qed.

Lemma reserve_owns s stacks fl (n : nat) :
  owns s stacks fl →
  ∃ s', reserve n s = Some (tt, s') ∧ owns s' stacks fl
        ∧ (n ≤ capacity s')%nat ∧ (capacity s ≤ capacity s')%nat
        ∧ vec_size (pool s') = vec_size (pool s).
Proof.
  destruct s as [[es c r0] f]. intros Hown.
  unfold reserve, vec_reserve, capacity. simpl.
  pose proof (fit_ge n).
  destruct (decide (c < n)%nat); eexists; (split; [done |]);
    (split; [exact Hown | unfold vec_capacity, vec_size; simpl; lia]).
Qed.

Lemma new_stack_owns s stacks fl :
  owns s stacks fl → owns s (stacks ++ [(end_, [])]) fl.
Proof.
  intros (Haddr & Hfl & Hst & Hpair & Hcov).
  assert (Hlast : ∀ (j : nat) hj lj,
    (stacks ++ [(end_, [])]) !! j = Some (hj, lj) →
    stacks !! j = Some (hj, lj) ∨ (hj = end_ ∧ lj = [])).
  { intros j hj lj Hj. apply lookup_app_Some in Hj as [Hj | [_ Hj]]; [by left |].
    right. apply list_lookup_singleton_Some in Hj as [_ [= <- <-]]. done. }
  split_and!; [done | done | | |].
  - intros j hj lj Hj. destruct (Hlast _ _ _ Hj) as [Hj' | [-> ->]].
    + by eapply Hst.
    + split; [constructor | apply separate_nil_l].
  - intros j1 j2 h1 l1 h2 l2 Hne H1 H2.
    destruct (Hlast _ _ _ H1) as [H1' | [-> ->]]; [| apply separate_nil_l].
    destruct (Hlast _ _ _ H2) as [H2' | [-> ->]]; [| apply separate_nil_r].
    eapply Hpair; [exact Hne | eassumption ..].
  - intros x Hx. destruct (Hcov x Hx) as [? | (j & hj & lj & Hj & Hin)];
      [by left | right].
    exists j, hj, lj. split; [| done]. by apply lookup_app_l_Some.
Qed.

(** Every run of client calls on an owned pool keeps the pool owned and
    does to the contents of the stacks what the calls do to lists. *)
Lemma run_refines (fuel : nat) (cs : list (call T)) : ∀ s stacks fl,
  owns s stacks fl →
  Z.of_nat (vec_size (pool s) + pushes cs) < 2 ^ width →
  (pushes cs ≤ fuel)%nat →
  (∀ (i : nat) h l, stacks !! i = Some (h, l) →
     (length l + pushes cs ≤ fuel)%nat) →
  ∃ s' stacks' fl',
    run fuel cs stacks.*1 s = Some (stacks'.*1, s')
    ∧ owns s' stacks' fl'
    ∧ (λ p, p.2.*2) <$> stacks' = run_list cs ((λ p, p.2.*2) <$> stacks)
    ∧ (∀ (i : nat) h l, stacks' !! i = Some (h, l) → (length l ≤ fuel)%nat).
Proof.
  induction cs as [|c cs IH]; intros s stacks fl Hown Hroom Hfuel Hlen.
  - exists s, stacks, fl. simpl. split_and!; [done | done | done |].
    intros i h l Hi. specialize (Hlen _ _ _ Hi). simpl in Hlen. lia.
  - assert (Hnext : ∀ s1 stacks1 fl1,
      step fuel c stacks.*1 s = Some (stacks1.*1, s1) →
      owns s1 stacks1 fl1 →
      (vec_size (pool s1) + pushes cs ≤ vec_size (pool s) + pushes (c :: cs))%nat →
      (λ p, p.2.*2) <$> stacks1 = step_list c ((λ p, p.2.*2) <$> stacks) →
      (∀ (i : nat) h l, stacks1 !! i = Some (h, l) →
         (length l + pushes cs ≤ fuel)%nat) →
      ∃ s' stacks' fl',
        run fuel (c :: cs) stacks.*1 s = Some (stacks'.*1, s')
        ∧ owns s' stacks' fl'
        ∧ (λ p, p.2.*2) <$> stacks'
          = run_list (c :: cs) ((λ p, p.2.*2) <$> stacks)
        ∧ (∀ (i : nat) h l, stacks' !! i = Some (h, l) → (length l ≤ fuel)%nat)).
    { assert ((pushes cs ≤ pushes (c :: cs))%nat) by (destruct c; simpl; lia).
      intros s1 stacks1 fl1 Hstep Hown1 Hsz Hmod Hlen1.
      destruct (IH s1 stacks1 fl1 Hown1) as (s' & stacks' & fl' & Hrun & Hown'
                                              & Hmod' & Hlen');
        [lia | lia | done |].
      exists s', stacks', fl'. simpl. unfold bind at 1. rewrite Hstep.
      split_and!; [done | done | | done]. by rewrite Hmod', Hmod. }
    assert (Hskip : ∀ i : nat, stacks !! i = None →
      stacks.*1 !! i = None ∧ ((λ p, p.2.*2) <$> stacks) !! i = None).
    { intros i Hi. by rewrite !list_lookup_fmap, Hi. }
    assert (Hhit : ∀ (i : nat) h l, stacks !! i = Some (h, l) →
      stacks.*1 !! i = Some h ∧ ((λ p, p.2.*2) <$> stacks) !! i = Some l.*2).
    { intros i h l Hi. by rewrite !list_lookup_fmap, Hi. }
    assert (Hsame : (pushes cs ≤ pushes (c :: cs))%nat)
      by (destruct c; simpl; lia).
    assert (Hkeep : ∀ (i : nat) h l, stacks !! i = Some (h, l) →
      (length l + pushes cs ≤ fuel)%nat).
    { intros i h l Hi. specialize (Hlen _ _ _ Hi). lia. }
    destruct c as [|i v|i|i|n].
    + (* new_stack *)
      apply (Hnext s (stacks ++ [(end_, [])]) fl).
      * simpl. by rewrite fmap_app.
      * by apply new_stack_owns.
      * simpl. lia.
      * simpl. by rewrite fmap_app.
      * intros i h l Hi. apply lookup_app_Some in Hi as [Hi | [_ Hi]].
        -- by eapply Hkeep.
        -- apply list_lookup_singleton_Some in Hi as [_ [= <- <-]].
           simpl in *. lia.
    + (* push *)
      destruct (stacks !! i) as [[h l]|] eqn:Hi.
      * destruct (Hhit _ _ _ Hi) as [Hh Hm].
        destruct (push_owns s stacks fl i h l v Hown Hi)
          as (r & s1 & Hpush & Hsz & Hown1).
        { intros _. simpl in Hroom. lia. }
        apply (Hnext s1 (<[i := (r, (r, v) :: l)]> stacks) (tail fl)).
        -- simpl. rewrite Hh. unfold bind. rewrite Hpush. simpl.
           by rewrite list_fmap_insert.
        -- done.
        -- simpl. lia.
        -- simpl. rewrite Hm. by rewrite list_fmap_insert.
        -- intros j hj lj Hj.
           apply list_lookup_insert_Some in Hj
             as [(-> & [= <- <-] & _) | [Hne Hj]].
           ++ specialize (Hlen _ _ _ Hi). simpl in *. lia.
           ++ specialize (Hlen _ _ _ Hj). simpl in *. lia.
      * destruct (Hskip _ Hi) as [Hh Hm].
        apply (Hnext s stacks fl); simpl; [by rewrite Hh | done | lia
                                          | by rewrite Hm |].
        intros j hj lj Hj. specialize (Hlen _ _ _ Hj). simpl in Hlen. lia.
    + (* pop *)
      destruct (stacks !! i) as [[h l]|] eqn:Hi.
      * destruct (Hhit _ _ _ Hi) as [Hh Hm].
        destruct l as [|[x v] l].
        -- assert (h = end_) as ->.
           { destruct Hown as (_ & _ & Hst & _).
             destruct (Hst _ _ _ Hi) as [Hch _]. by inversion Hch. }
           apply (Hnext s stacks fl); simpl.
           ++ rewrite Hh. unfold bind. simpl. by rewrite list_insert_id.
           ++ done.
           ++ lia.
           ++ rewrite Hm. simpl. by rewrite list_insert_id.
           ++ done.
        -- assert (x = h) as ->.
           { destruct Hown as (_ & _ & Hst & _).
             destruct (Hst _ _ _ Hi) as [Hch _]. by inversion Hch. }
           destruct (pop_owns s stacks fl i h v l Hown Hi)
             as (n & s1 & Hpop & Hsz & Hown1).
           apply (Hnext s1 (<[i := (n, l)]> stacks) ((h, v) :: fl)).
           ++ simpl. rewrite Hh. unfold bind. rewrite Hpop. simpl.
              by rewrite list_fmap_insert.
           ++ done.
           ++ simpl. lia.
           ++ simpl. rewrite Hm. simpl. by rewrite list_fmap_insert.
           ++ intros j hj lj Hj.
              apply list_lookup_insert_Some in Hj
                as [(-> & [= <- <-] & _) | [Hne Hj]].
              ** specialize (Hlen _ _ _ Hi). simpl in *. lia.
              ** by eapply Hkeep.
      * destruct (Hskip _ Hi) as [Hh Hm].
        apply (Hnext s stacks fl); simpl; [by rewrite Hh | done | lia
                                          | by rewrite Hm | done].
    + (* free_stack *)
      destruct (stacks !! i) as [[h l]|] eqn:Hi.
      * destruct (Hhit _ _ _ Hi) as [Hh Hm].
        destruct (free_stack_owns l s stacks fl i h fuel Hown Hi)
          as (s1 & Hfree & Hsz & Hown1).
        { specialize (Hlen _ _ _ Hi). lia. }
        apply (Hnext s1 (<[i := (end_, [])]> stacks) (reverse l ++ fl)).
        -- simpl. rewrite Hh. unfold bind. rewrite Hfree. simpl.
           by rewrite list_fmap_insert.
        -- done.
        -- simpl. lia.
        -- simpl. rewrite Hm. by rewrite list_fmap_insert.
        -- intros j hj lj Hj.
           apply list_lookup_insert_Some in Hj
             as [(-> & [= <- <-] & _) | [Hne Hj]].
           ++ specialize (Hlen _ _ _ Hi). simpl in *. lia.
           ++ by eapply Hkeep.
      * destruct (Hskip _ Hi) as [Hh Hm].
        apply (Hnext s stacks fl); simpl; [by rewrite Hh | done | lia
                                          | by rewrite Hm | done].
    + (* reserve *)
      destruct (reserve_owns s stacks fl n Hown)
        as (s1 & Hres & Hown1 & _ & _ & Hsz).
      apply (Hnext s1 stacks fl); simpl.
      * unfold bind. by rewrite Hres.
      * done.
      * lia.
      * done.
      * done.
Qed.

End Ownership.

(** ** Handles, iterators and node fields *)

Section Further.
Context {T : Type} `{Ix : Index} `{Al : Growth}.

Implicit Types (s : stack_pool T) (es : list (node_t T)) (x h f : stack_type)
  (l m fl : list (stack_type * T)).

Notation "'let*' x ':=' m 'in' k" := (bind m (λ x, k))
  (at level 10, x name, m at level 100, k at level 200, only parsing).

(** The head of a chain is the handle of its first node. *)
Lemma chain_head es x l : chain es x l → x = handle_at l 0.
Proof. by inversion 1. Qed.

Lemma handle_at_end es x l (k : nat) :
  chain es x l → (k ≤ length l)%nat →
  handle_at l k = end_ ↔ k = length l.
Proof.
  intros Hc Hk. unfold handle_at. split.
  - intros Hh. destruct (l !! k) as [[y v]|] eqn:Hlk.
    + simpl in Hh. subst y.
      assert (Hin : end_ ∈ l.*1).
      { apply list_elem_of_fmap. exists (end_, v). split; [done |].
        by eapply list_elem_of_lookup_2. }
      destruct (chain_member_live _ _ _ _ Hc Hin) as [Hr _].
      unfold end_ in Hr. lia.
    + apply lookup_ge_None in Hlk. lia.
  - intros ->. by rewrite lookup_ge_None_2.
Qed.

(** [k] pre-increments from the head of a chain reach its [k]-th node and
    leave the pool as it is. *)
Lemma advance_chain es c r f (this : positive) x l :
  chain es x l → ∀ k : nat, (k ≤ length l)%nat →
  advance k (Iterator this x) (StackPool (Vector es c r) f)
  = Some (Iterator this (handle_at l k), StackPool (Vector es c r) f)
  ∧ chain es (handle_at l k) (drop k l).
Proof.
  induction 1 as [|x v n l Hx Hl Hc IH]; intros k Hk.
  - destruct k; [| simpl in Hk; lia]. split; [done | constructor].
  - destruct k as [|k].
    + split; [done |]. simpl. by econstructor.
    + simpl in Hk. destruct (IH k) as [Hadv Hch]; [lia |].
      split; [| done]. simpl. unfold bind at 1, pre_inc. unfold bind at 1.
      simpl. rewrite (next_read _ _ _ _ _ _ _ Hl). simpl. exact Hadv.
Qed.

(** Pushes without free nodes hand out consecutive handles. *)
Lemma push_each_fresh (ps : list (T * stack_type)) : ∀ es c r,
  Z.of_nat (length es + length ps) < 2 ^ width →
  ∃ es' c' r',
    push_each ps (StackPool (Vector es c r) end_)
    = Some ((λ k : nat, Z.of_nat (length es + k)) <$> seq 1 (length ps),
            StackPool (Vector es' c' r') end_)
    ∧ length es' = (length es + length ps)%nat.
Proof.
  induction ps as [|[v h] ps IH]; intros es c r Hroom.
  - exists es, c, r. simpl. split; [done | lia].
  - simpl in Hroom. simpl push_each. unfold bind at 1.
    rewrite push_grow, static_cast_small by lia.
    assert (∃ c1 r1, vec_emplace_back (Node v h) (Vector es c r)
                     = Vector (es ++ [Node v h]) c1 r1) as (c1 & r1 & ->).
    { unfold vec_emplace_back. destruct (decide _); by eexists _, _. }
    destruct (IH (es ++ [Node v h]) c1 r1) as (es' & c' & r' & Hrun & Hlen).
    { rewrite length_app. simpl. lia. }
    assert (Hseq :
      (λ k : nat, Z.of_nat (length es + k)) <$> seq 1 (S (length ps))
      = Z.of_nat (S (length es))
        :: ((λ k : nat, Z.of_nat (length es + 1 + k)) <$> seq 1 (length ps))).
    { rewrite <- cons_seq, fmap_cons. f_equal; [f_equal; lia |].
      rewrite <- fmap_S_seq, <- list_fmap_compose.
      apply list_fmap_ext. intros i k _. simpl. f_equal. lia. }
    unfold bind at 1. rewrite Hrun.
    exists es', c', r'. split.
    + unfold ret. rewrite length_app. simpl length. by rewrite Hseq.
    + rewrite Hlen, length_app. simpl. lia.
Qed.

(** An assignment to the value of a node keeps every chain, with the new
    value at that node. *)
Lemma chain_revalue es h l x (v v' : T) (n : stack_type) :
  chain es h l → 0 < x < 2 ^ width → es !! slot x = Some (Node v n) →
  chain (<[slot x := Node v' n]> es) h (revalue x v' l).
Proof.
  intros Hc Hx Hlx. induction Hc as [|y w ny l Hy Hl Hc IH]; [constructor |].
  unfold revalue. rewrite fmap_cons. fold (revalue x v' l). simpl.
  destruct (decide (y = x)) as [-> | Hne].
  - rewrite Hlx in Hl. injection Hl as <- <-.
    econstructor; [done | | done].
    apply list_lookup_insert_eq. by eapply lookup_lt_Some.
  - econstructor; [done | | done].
    rewrite list_lookup_insert_ne; [done |].
    intros Heq. apply slot_inj in Heq; done.
Qed.

Lemma revalue_handles x (v : T) l : (revalue x v l).*1 = l.*1.
Proof.
  unfold revalue. rewrite <- list_fmap_compose. apply list_fmap_ext.
  intros i [y w] _. simpl. by destruct (decide (y = x)) as [-> |].
Qed.

Lemma revalue_fresh x (v : T) l : x ∉ l.*1 → revalue x v l = l.
Proof.
  intros Hx. unfold revalue. rewrite <- (list_fmap_id l) at 2.
  apply list_fmap_ext. intros i [y w] Hi. simpl.
  destruct (decide (y = x)) as [-> |]; [| done].
  exfalso. apply Hx. apply list_elem_of_fmap. exists (x, w).
  split; [done | by eapply list_elem_of_lookup_2].
Qed.

(** An assignment to the link of the last node of a chain puts another
    chain behind it. *)
Lemma chain_link es b lb x (v : T) : ∀ la a,
  chain es a (la ++ [(x, v)]) → chain es b lb →
  separate (la ++ [(x, v)]) lb →
  chain (<[slot x := Node v b]> es) a (la ++ (x, v) :: lb).
Proof.
  induction la as [|[y w] la IH]; simpl; intros a Ha Hb Hsep.
  - inversion Ha as [|x' v' n l0 Hx Hl Hc0]; subst.
    apply separate_cons_l in Hsep as [Hxb _].
    econstructor; [done | | by apply chain_insert].
    apply list_lookup_insert_eq. by eapply lookup_lt_Some.
  - inversion Ha as [|x' v' n l0 Hy Hl Hc0]; subst.
    pose proof (chain_head_fresh _ _ _ _ Ha) as Hfresh.
    apply separate_cons_l in Hsep as [_ Hsep].
    assert (Hxin : x ∈ (la ++ [(x, v)]).*1).
    { rewrite fmap_app. apply elem_of_app. right. simpl. left. }
    destruct (chain_member_live _ _ _ _ Hc0 Hxin) as [Hx _].
    econstructor; [done | | by apply IH].
    rewrite list_lookup_insert_ne; [done |].
    intros Heq. apply slot_inj in Heq; [| done | done]. by subst.
Qed.

(** *** Properties of the remaining code *)

(** X1.  [push] onto a stack of an owned pool keeps the pool owned: the
    stack has the new node in front of its old nodes, every other stack
    keeps its chain, the free list loses at most its head, and every node
    still lies on exactly one chain. *)
Theorem push_keeps_ownership s
    (stacks : list (stack_type * list (stack_type * T))) fl
    (i : nat) h l (v : T) :
  owns s stacks fl → stacks !! i = Some (h, l) → has_room s →
  ∃ r s',
    push v h s = Some (r, s')
    ∧ (vec_size (pool s') ≤ S (vec_size (pool s)))%nat
    ∧ owns s' (<[i := (r, (r, v) :: l)]> stacks) (tail fl).
Proof. apply push_owns. Qed.

(** X2.  [pop] on the head of a non-empty stack of an owned pool keeps
    the pool owned: the stack loses its first node, which becomes the
    head of the free list; the storage keeps its size. *)
Theorem pop_keeps_ownership s
    (stacks : list (stack_type * list (stack_type * T))) fl
    (i : nat) h (v : T) l :
  owns s stacks fl → stacks !! i = Some (h, (h, v) :: l) →
  ∃ n s',
    pop h s = Some (n, s')
    ∧ vec_size (pool s') = vec_size (pool s)
    ∧ owns s' (<[i := (n, l)]> stacks) ((h, v) :: fl).
Proof. apply pop_owns. Qed.

(** X3.  [free_stack] on a stack of an owned pool keeps the pool owned:
    the stack is empty afterwards and all its nodes are on the free list,
    the last one first; the storage keeps its size. *)
Theorem free_stack_keeps_ownership s
    (stacks : list (stack_type * list (stack_type * T))) fl
    (i : nat) h l (fuel : nat) :
  owns s stacks fl → stacks !! i = Some (h, l) → (length l ≤ fuel)%nat →
  ∃ s',
    free_stack fuel h s = Some (end_, s')
    ∧ vec_size (pool s') = vec_size (pool s)
    ∧ owns s' (<[i := (end_, [])]> stacks) (reverse l ++ fl).
Proof. apply free_stack_owns. Qed.

(** X4.  The sized constructor makes a pool without nodes and without
    free nodes, whose capacity is at least the number asked for and which
    is owned by no stack; [reserve] and [new_stack] keep an owned pool
    owned by the same chains. *)
Theorem constructed_pool_owned (n : nat) :
  (∃ s0 : stack_pool T,
     stack_pool_sized n = Some s0
     ∧ vec_size (pool s0) = 0%nat
     ∧ free_nodes s0 = end_
     ∧ (n ≤ capacity s0)%nat
     ∧ owns s0 [] [])
  ∧ (∀ s stacks fl, owns s stacks fl →
       ∃ s', reserve n s = Some (tt, s') ∧ owns s' stacks fl)
  ∧ (∀ s stacks fl, owns s stacks fl →
       new_stack s = Some (end_, s) ∧ owns s (stacks ++ [(end_, [])]) fl).
Proof.
  split_and!.
  - destruct (reserve_owns (T := T) stack_pool_default [] [] n default_owns)
      as (s0 & Hres & Hown & Hcap & _ & Hsz).
    exists s0. unfold stack_pool_sized. rewrite Hres.
    split_and!; [done | done | | done | done].
    unfold reserve in Hres. by injection Hres as <-.
  - intros s stacks fl Hown.
    destruct (reserve_owns s stacks fl n Hown) as (s' & Hres & Hown' & _).
    by exists s'.
  - intros s stacks fl Hown. split; [done | by apply new_stack_owns].
Qed.

(** X5.  A client that starts with a pool made by the sized constructor
    and calls [new_stack], [push], [pop], [free_stack] and [reserve] on
    the heads it holds, always passing the head it got back, sees the
    stacks behave like lists: no call is undefined, and iterating any
    head yields the list that the same calls build with cons, tail and
    nil, as long as the number of pushes fits the index type. *)
Theorem pool_refines_lists (n fuel : nat) (cs : list (call T))
    (this : positive) :
  Z.of_nat (pushes cs) < 2 ^ width → (pushes cs ≤ fuel)%nat →
  ∃ s0 heads s,
    stack_pool_sized n = Some s0
    ∧ run fuel cs [] s0 = Some (heads, s)
    ∧ Forall2 (λ h vs, to_list fuel this h s = Some (vs, s))
        heads (run_list cs []).
Proof.
  intros Hroom Hfuel.
  destruct (reserve_owns (T := T) stack_pool_default [] [] n default_owns)
    as (s0 & Hres & Hown & _ & _ & Hsz).
  destruct (run_refines fuel cs s0 [] [] Hown)
    as (s & stacks & fl & Hrun & Hown' & Hmod & Hlen).
  - rewrite Hsz. simpl. lia.
  - done.
  - intros i h l Hi. by rewrite lookup_nil in Hi.
  - exists s0, stacks.*1, s. unfold stack_pool_sized. rewrite Hres.
    split_and!; [done | done |].
    rewrite fmap_nil in Hmod. rewrite <- Hmod. apply Forall2_fmap, Forall_Forall2_diag, Forall_lookup.
    intros i [h l] Hi. simpl.
    destruct Hown' as (_ & _ & Hst & _).
    destruct (Hst _ _ _ Hi) as [Hch _].
    destruct s as [[es c r] f]. unfold is_stack in Hch. simpl in Hch.
    unfold to_list, begin.
    apply (iterate_chain _ _ _ _ _ _ _ _ Hch). by eapply Hlen.
Qed.

(** X6.  On a pool without free nodes, [k] pushes (any values, any
    heads) return the consecutive handles [size + 1, ..., size + k] and
    leave the free list empty, as long as [size + k] fits the index
    type. *)
Theorem push_hands_out_consecutive_handles s (ps : list (T * stack_type)) :
  free_nodes s = end_ →
  Z.of_nat (vec_size (pool s) + length ps) < 2 ^ width →
  ∃ s',
    push_each ps s
    = Some ((λ k : nat, Z.of_nat (vec_size (pool s) + k)) <$> seq 1 (length ps),
            s')
    ∧ vec_size (pool s') = (vec_size (pool s) + length ps)%nat
    ∧ free_nodes s' = end_.
Proof.
  destruct s as [[es c r] f]. unfold vec_size. simpl. intros -> Hroom.
  destruct (push_each_fresh ps es c r Hroom) as (es' & c' & r' & Hrun & Hlen).
  eexists. split_and!; [exact Hrun | done | done].
Qed.

(** X7.  [pop] twice on the same handle (the second time it is stale)
    returns the old head of the free list and links the node to itself:
    the next two pushes both return that node, so the value pushed first
    is overwritten by the one pushed second, and the free list then
    continues at the head that was passed to the first push. *)
Theorem double_pop_hands_node_out_twice s x (v : T) (n : stack_type)
    (v1 v2 : T) (h1 h2 : stack_type) :
  x ≠ end_ → vec_get (pool s) (slot x) = Some (Node v n) →
  ∃ s1 s2 s3 s4,
    pop x s = Some (n, s1)
    ∧ pop x s1 = Some (free_nodes s, s2)
    ∧ next x s2 = Some (x, s2)
    ∧ push v1 h1 s2 = Some (x, s3)
    ∧ push v2 h2 s3 = Some (x, s4)
    ∧ value x s4 = Some (v2, s4)
    ∧ free_nodes s4 = h1.
Proof.
  destruct s as [[es c r] f]. unfold vec_get. simpl. intros Hne Hl.
  pose proof (lookup_lt_Some _ _ _ Hl) as Hlt.
  set (es1 := <[slot x := Node v f]> es).
  assert (Hl1 : es1 !! slot x = Some (Node v f))
    by (by apply list_lookup_insert_eq).
  set (es2 := <[slot x := Node v x]> es1).
  assert (Hl2 : es2 !! slot x = Some (Node v x))
    by (apply list_lookup_insert_eq; unfold es1; by rewrite length_insert).
  set (es3 := <[slot x := Node v1 h1]> es2).
  assert (Hl3 : es3 !! slot x = Some (Node v1 h1)).
  { apply list_lookup_insert_eq. unfold es2, es1. by rewrite !length_insert. }
  assert (Hl4 : <[slot x := Node v2 h2]> es3 !! slot x = Some (Node v2 h2)).
  { apply list_lookup_insert_eq. unfold es3, es2, es1.
    by rewrite !length_insert. }
  eexists _, _, _, _. split_and!.
  - by apply pop_live.
  - by apply pop_live.
  - by eapply next_read.
  - by eapply push_reuse.
  - by eapply push_reuse.
  - by eapply value_read.
  - done.
Qed.

(** X8.  An assignment through [value(x)] to a node of a stack changes
    the value of that node and nothing else: [value(x)] reads the new
    value, the stack has the same nodes in the same order with the new
    value at [x], the iteration yields them, and every chain that does
    not hold [x], the free list included through its head, is as
    before. *)
Theorem value_assign_in_place s h l x (v' : T) :
  is_stack s h l → x ∈ l.*1 →
  ∃ s',
    value_assign x v' s = Some (tt, s')
    ∧ value x s' = Some (v', s')
    ∧ is_stack s' h (revalue x v' l)
    ∧ (revalue x v' l).*1 = l.*1
    ∧ free_nodes s' = free_nodes s
    ∧ vec_size (pool s') = vec_size (pool s)
    ∧ (∀ y m, is_stack s y m → x ∉ m.*1 → is_stack s' y m)
    ∧ (∀ (fuel : nat) (this : positive), (length l ≤ fuel)%nat →
         to_list fuel this h s' = Some ((revalue x v' l).*2, s')).
Proof.
  destruct s as [[es c r] f]. unfold is_stack, vec_size. simpl.
  intros Hch Hin.
  destruct (chain_member_live _ _ _ _ Hch Hin) as [Hx Hlt].
  destruct (lookup_lt_is_Some_2 _ _ Hlt) as [[v n] Hl].
  rewrite (value_assign_live _ _ _ _ _ _ _ _ Hl).
  pose proof (chain_revalue _ _ _ _ _ v' _ Hch Hx Hl) as Hch'.
  eexists. split_and!; [done | | exact Hch' | apply revalue_handles | done
                       | simpl; by rewrite length_insert | |].
  - eapply value_read. by apply list_lookup_insert_eq.
  - intros y m Hm Hfresh. simpl. by apply chain_insert.
  - intros fuel this Hfuel. unfold to_list, begin.
    apply (iterate_chain _ _ _ _ _ _ _ _ Hch').
    unfold revalue. by rewrite length_fmap.
Qed.

(** X9.  [pop] on a live node followed by [push] of the value that node
    held, onto the handle [pop] returned, returns the node's handle and
    puts the whole pool back: storage, capacity and free list are those
    before the two calls. *)
Theorem pop_then_push_restores s x (v : T) (n : stack_type) :
  x ≠ end_ → vec_get (pool s) (slot x) = Some (Node v n) →
  ∃ s1, pop x s = Some (n, s1) ∧ push v n s1 = Some (x, s).
Proof.
  destruct s as [[es c r] f]. unfold vec_get. simpl. intros Hne Hl.
  pose proof (lookup_lt_Some _ _ _ Hl) as Hlt.
  eexists. split; [by apply pop_live |].
  erewrite push_reuse; [| done | by apply list_lookup_insert_eq].
  by rewrite list_insert_insert_eq, list_insert_id.
Qed.

(** X10.  An iterator advanced [k] times from [begin(h)] over a stack of
    [len] nodes, [k] at most [len], stands on the [k]-th node and has not
    changed the pool; it equals [end(h)] exactly when [k = len]; before
    that it dereferences to the [k]-th value, and the post-increment
    returns the iterator as it was and moves on to node [k + 1]. *)
Theorem iterator_walk s h l (this : positive) (k : nat) :
  is_stack s h l → (k ≤ length l)%nat →
  advance k (begin this h) s = Some (Iterator this (handle_at l k), s)
  ∧ (iterator_eq (Iterator this (handle_at l k)) (end_it this h) = true
     ↔ k = length l)
  ∧ (∀ x (v : T), l !! k = Some (x, v) →
       handle_at l k = x
       ∧ deref (Iterator this x) s = Some (v, s)
       ∧ post_inc (Iterator this x) s
         = Some ((Iterator this x, Iterator this (handle_at l (S k))), s)
       ∧ advance (S k) (begin this h) s
         = Some (Iterator this (handle_at l (S k)), s)).
Proof.
  destruct s as [[es c r] f]. unfold is_stack, begin. simpl.
  intros Hch Hk.
  destruct (advance_chain es c r f this h l Hch k Hk) as [Hadv Hdrop].
  split_and!; [done | |].
  - unfold iterator_eq, end_it. simpl. rewrite Z.eqb_eq.
    by eapply handle_at_end.
  - intros x v Hlk.
    assert (Hx : handle_at l k = x) by (unfold handle_at; by rewrite Hlk).
    rewrite Hx in Hdrop.
    rewrite (drop_S _ _ _ Hlk) in Hdrop.
    inversion Hdrop as [|x' v' n l0 Hxr Hl Hc0]; subst x' v' l0.
    assert (Hn : n = handle_at l (S k)).
    { rewrite (chain_head _ _ _ Hc0). unfold handle_at.
      by rewrite lookup_drop, Nat.add_0_r. }
    pose proof (lookup_lt_Some _ _ _ Hlk) as Hlt.
    destruct (advance_chain es c r f this h l Hch (S k)) as [Hadv' _];
      [lia |].
    split_and!; [done | | | done].
    + unfold deref. simpl. by eapply value_read.
    + unfold post_inc, pre_inc, bind. simpl.
      rewrite (next_read _ _ _ _ _ _ _ Hl). simpl. by rewrite Hn.
Qed.

(** X11.  [pop] invalidates an iterator that stands on the removed node:
    the rest of the stack is intact and iterating from the handle [pop]
    returned yields it, but iterating from the removed handle yields the
    removed value followed by the values of the free list. *)
Theorem pop_invalidates_iterator s x (v : T) l fl (fuel : nat)
    (this : positive) :
  is_stack s x ((x, v) :: l) → free_list s fl →
  separate ((x, v) :: l) fl →
  (length l ≤ fuel)%nat → (S (length fl) ≤ fuel)%nat →
  ∃ n s1,
    pop x s = Some (n, s1)
    ∧ is_stack s1 n l
    ∧ to_list fuel this n s1 = Some (l.*2, s1)
    ∧ to_list fuel this x s1 = Some (v :: fl.*2, s1).
Proof.
  destruct s as [[es c r] f]. unfold is_stack, free_list. simpl.
  intros Hch Hfl Hsep Hfuel Hfuel'.
  pose proof (chain_head_fresh _ _ _ _ Hch) as Hfresh.
  apply separate_cons_l in Hsep as [Hxfl Hsep].
  inversion Hch as [|x' v' n l0 Hx Hl Hc0]; subst.
  assert (Hne : x ≠ end_) by (unfold end_; lia).
  rewrite (pop_live _ _ _ _ _ _ _ Hne Hl).
  assert (Hrest : chain (<[slot x := Node v f]> es) n l)
    by (by apply chain_insert).
  assert (Hstale : chain (<[slot x := Node v f]> es) x ((x, v) :: fl)).
  { econstructor; [done | | by apply chain_insert].
    apply list_lookup_insert_eq. by eapply lookup_lt_Some. }
  eexists n, _. split_and!; [done | exact Hrest | |]; unfold to_list, begin.
  - by apply (iterate_chain _ _ _ _ _ _ _ _ Hrest).
  - by apply (iterate_chain _ _ _ _ _ _ _ _ Hstale).
Qed.

(** X12.  [push] on a pool without free nodes always appends the node at
    the end of the storage and returns a value of the index type; that
    value is the position of the node plus one exactly when this number
    fits the index type, and otherwise it is smaller, so that no handle
    is returned for the new node. *)
Theorem push_grow_handle s (v : T) h :
  free_nodes s = end_ →
  ∃ r s',
    push v h s = Some (r, s')
    ∧ vec_size (pool s') = S (vec_size (pool s))
    ∧ vec_get (pool s') (vec_size (pool s)) = Some (Node v h)
    ∧ free_nodes s' = end_
    ∧ 0 <= r < 2 ^ width
    ∧ r <= Z.of_nat (vec_size (pool s'))
    ∧ (r = Z.of_nat (vec_size (pool s'))
       ↔ Z.of_nat (vec_size (pool s')) < 2 ^ width).
Proof.
  destruct s as [[es c r0] f]. unfold vec_size, vec_get. simpl. intros ->.
  rewrite push_grow.
  assert (∃ c1 r1, vec_emplace_back (Node v h) (Vector es c r0)
                   = Vector (es ++ [Node v h]) c1 r1) as (c1 & r1 & ->).
  { unfold vec_emplace_back. destruct (decide _); by eexists _, _. }
  pose proof pow_width_pos as Hpos.
  pose proof (Z.mod_pos_bound (Z.of_nat (S (length es))) (2 ^ width) Hpos)
    as Hmod.
  pose proof (Z.mod_le (Z.of_nat (S (length es))) (2 ^ width)
                ltac:(lia) Hpos) as Hle.
  eexists _, _. split; [done |]. simpl.
  rewrite length_app. simpl. rewrite Nat.add_1_r.
  split_and!; [done | by apply list_lookup_middle | done | apply Hmod
              | apply Hmod | apply Hle |].
  unfold static_cast. split.
  - intros Heq. rewrite <- Heq. apply Hmod.
  - intros Hlt. apply Z.mod_small. lia.
Qed.

(** X13.  An assignment through [next(x)] to the last node of a stack
    links a second stack behind the first: the first stack is then its
    own nodes followed by those of the second, which stays as it is. *)
Theorem next_assign_concatenates s a la x (v : T) b lb :
  is_stack s a (la ++ [(x, v)]) → is_stack s b lb →
  separate (la ++ [(x, v)]) lb →
  ∃ s',
    next_assign x b s = Some (tt, s')
    ∧ next x s' = Some (b, s')
    ∧ is_stack s' a (la ++ (x, v) :: lb)
    ∧ is_stack s' b lb
    ∧ free_nodes s' = free_nodes s.
Proof.
  destruct s as [[es c r] f]. unfold is_stack. simpl.
  intros Ha Hb Hsep.
  assert (Hxin : x ∈ (la ++ [(x, v)]).*1).
  { rewrite fmap_app. apply elem_of_app. right. simpl. left. }
  destruct (chain_member_live _ _ _ _ Ha Hxin) as [Hx Hlt].
  assert (Hxb : x ∉ lb.*1) by (intros Hin; by apply (Hsep x)).
  assert (∃ n, es !! slot x = Some (Node v n)) as [n Hl].
  { clear Hsep Hxin Hxb. revert a Ha.
    induction la as [|[y w] la IH]; simpl; intros a Ha;
      inversion Ha; subst; [by eexists | by eapply IH]. }
  rewrite (next_assign_live _ _ _ _ _ _ _ _ Hl).
  eexists. split_and!; [done | | by apply chain_link | by apply chain_insert
                       | done].
  eapply next_read. by apply list_lookup_insert_eq.
Qed.

(** X14.  The loops end: a stack has at most as many nodes as the
    storage, so [free_stack] on its head returns the sentinel, and the
    iteration from its head yields its values, within as many rounds as
    the storage has nodes. *)
Theorem stack_loops_terminate s h l (this : positive) :
  is_stack s h l →
  (length l ≤ vec_size (pool s))%nat
  ∧ NoDup l.*1
  ∧ to_list (vec_size (pool s)) this h s = Some (l.*2, s)
  ∧ ∃ s', free_stack (vec_size (pool s)) h s = Some (end_, s').
Proof.
  destruct s as [[es c r] f]. unfold is_stack, vec_size. simpl. intros Hch.
  pose proof (chain_NoDup _ _ _ Hch) as Hnd.
  assert (Hlen : (length l ≤ length es)%nat).
  { rewrite <- (length_fmap fst l).
    trans (length (Z.of_nat <$> seq 1 (length es)));
      [| by rewrite length_fmap, length_seq].
    apply submseteq_length, NoDup_submseteq; [done |].
    intros y Hy. pose proof (chain_handle_le _ _ _ _ Hch Hy) as Hle.
    apply list_elem_of_fmap. exists (Z.to_nat y).
    split; [lia | apply elem_of_seq; lia]. }
  split_and!; [done | done | |].
  - unfold to_list, begin. by apply iterate_chain.
  - destruct (free_stack_chain l es c r f h (length es) Hch Hlen)
      as (es' & Hfree & _).
    by eexists.
Qed.

End Further.

(** ** The properties at work: [stack_pool<Z, std::size_t>] *)

Section SizeT.
Local Existing Instance size_t_index.
Local Existing Instance doubling.

Notation "'let*' x ':=' m 'in' k" := (bind m (λ x, k))
  (at level 10, x name, m at level 100, k at level 200, only parsing).

Local Ltac live := vm_compute; split; reflexivity.

Local Ltac chain_of :=
  repeat first
    [ apply chain_end
    | eapply chain_node; [live | reflexivity | ] ].

Lemma demo_stack : is_stack demo 2 [(2, 20); (1, 10)].
Proof. unfold is_stack, demo. simpl. chain_of. Qed.

Lemma demo_free : free_list demo [(3, 5)].
Proof. unfold free_list, demo. simpl. chain_of. Qed.

Lemma demo_separate : separate [(2, 20); (1, 10)] [(3, 5 : Z)].
Proof.
  intros y Hy Hy'. simpl in *.
  apply list_elem_of_singleton in Hy'. subst y.
  rewrite !elem_of_cons, elem_of_nil in Hy. lia.
Qed.

(** The scenario of the specification: push 10, push 20, iterate, pop,
    iterate, free the stack. *)
Example scenario :
  (let* h0 := new_stack in
   let* h1 := push 10 h0 in
   let* h2 := push 20 h1 in
   let* l2 := to_list 2 1%positive h2 in
   let* h3 := pop h2 in
   let* l3 := to_list 1 1%positive h3 in
   let* h4 := free_stack 1 h3 in
   ret (h1, h2, l2, h3, l3, h4, empty h4)) stack_pool_default
  = Some ((1, 2, [20; 10], 1, [10], 0, true),
          StackPool (Vector [Node 10 2; Node 20 0] 2 2) 1).
Proof. reflexivity. Qed.

Lemma push_all_lifo_witness :
  ∃ h s',
    (let* h0 := new_stack in push_all [30; 40] h0) demo = Some (h, s')
    ∧ to_list 2 1%positive h s' = Some (reverse [30; 40], s').
Proof.
  apply (push_all_lifo demo [(3, 5)] [30; 40] 2 1%positive).
  - exact demo_free.
  - vm_compute. reflexivity.
  - simpl. lia.
Defined.

Lemma pop_push_witness :
  ∃ r s1 s2,
    push 30 2 demo = Some (r, s1)
    ∧ value r s1 = Some (30, s1)
    ∧ pop r s1 = Some (2, s2)
    ∧ free_nodes s2 = r
    ∧ value r s2 = Some (30, s2).
Proof.
  apply (pop_push demo [(3, 5)] 30 2).
  - exact demo_free.
  - intros Hf. vm_compute in Hf. discriminate Hf.
Defined.

Lemma free_stack_pops_witness :
  ∃ s',
    free_stack 2 2 demo = Some (end_, s')
    ∧ empty end_ = true
    ∧ capacity s' = capacity demo
    ∧ vec_size (pool s') = vec_size (pool demo)
    ∧ relocations (pool s') = relocations (pool demo)
    ∧ pop_n 2 2 demo = Some (end_, s')
    ∧ (∀ j : nat, (j < 2)%nat →
         ∃ y sj, pop_n j 2 demo = Some (y, sj) ∧ empty y = false)
    ∧ (∀ fl, free_list demo fl → separate [(2, 20); (1, 10)] fl →
         free_list s' (reverse [(2, 20); (1, 10)] ++ fl)).
Proof.
  apply (free_stack_pops demo 2 [(2, 20); (1, 10)] 2).
  - exact demo_stack.
  - simpl. lia.
Defined.

Lemma free_stack_recycles_witness :
  ∃ s1 s2,
    free_stack 2 2 demo = Some (end_, s1)
    ∧ push_each [(7, 0); (8, 3)] s1 = Some ([1; 2], s2)
    ∧ vec_size (pool s2) = vec_size (pool demo)
    ∧ capacity s2 = capacity demo
    ∧ relocations (pool s2) = relocations (pool demo)
    ∧ free_list s2 [(3, 5)].
Proof.
  apply (free_stack_recycles demo 2 [(2, 20); (1, 10)] [(3, 5)] 2
           [(7, 0); (8, 3)]).
  - exact demo_stack.
  - exact demo_free.
  - exact demo_separate.
  - simpl. lia.
  - reflexivity.
Defined.

Lemma reserve_then_push_witness :
  ∃ s1 rs s2,
    reserve 3 (stack_pool_default (T := Z)) = Some (tt, s1)
    ∧ push_each [(10, 0); (20, 1); (30, 0)] s1 = Some (rs, s2)
    ∧ relocations (pool s2) = relocations (pool s1)
    ∧ capacity s2 = capacity s1
    ∧ vec_size (pool s2) = 3%nat.
Proof.
  apply (proj1 (reserve_then_push 3) [(10, 0); (20, 1); (30, 0)]).
  simpl. lia.
Defined.

Lemma push_handle_one_based_witness :
  ∃ r s',
    push 30 2 packed = Some (r, s')
    ∧ 0 < r <= Z.of_nat (vec_size (pool s'))
    ∧ slot r = Z.to_nat (r - 1)
    ∧ vec_get (pool s') (Z.to_nat (r - 1)) = Some (Node 30 2)
    ∧ node r s' = Some (Node 30 2, s')
    ∧ (free_nodes packed = end_ → r = Z.of_nat (vec_size (pool s')))
    ∧ node end_ s' = None.
Proof.
  apply (push_handle_one_based packed [] 30 2).
  - apply chain_end.
  - vm_compute. reflexivity.
  - intros _. vm_compute. reflexivity.
Defined.

Lemma iterator_eq_current_witness :
  (iterator_eq (begin 1%positive 2) (Iterator 1%positive 2) = true
     ↔ current (begin 1%positive 2) = current (Iterator 1%positive 2))
  ∧ (iterator_eq (begin 1%positive 2) (Iterator 1%positive 2) = true
     ↔ begin 1%positive 2 = Iterator 1%positive 2)
  ∧ iterator_neq (begin 1%positive 2) (Iterator 1%positive 2)
    = negb (iterator_eq (begin 1%positive 2) (Iterator 1%positive 2))
  ∧ (iterator_eq (begin 1%positive 2) (end_it 1%positive 2) = true
     ↔ current (begin 1%positive 2) = end_).
Proof.
  apply (iterator_eq_current (begin 1%positive 2) (Iterator 1%positive 2)
           1%positive 2).
  reflexivity.
Defined.

Lemma push_not_sentinel_witness :
  (∀ r s', push 30 2 packed = Some (r, s') → empty r = false)
  ∧ (∀ fl, free_list packed fl → ∃ r s', push 30 2 packed = Some (r, s')).
Proof.
  apply (push_not_sentinel packed 30 2).
  intros _. vm_compute. reflexivity.
Defined.

Lemma free_list_lifo_witness :
  (∃ s1,
     pop 2 demo = Some (1, s1)
     ∧ free_list s1 [(2, 20); (3, 5)]
     ∧ ∀ (v' : Z) (h' : stack_type), ∃ s2,
         push v' h' s1 = Some (2, s2) ∧ free_list s2 [(3, 5)])
  ∧ (∃ s1,
       free_stack 2 2 demo = Some (end_, s1)
       ∧ free_list s1 [(1, 10); (2, 20); (3, 5)]
       ∧ ∀ (v' : Z) (h' : stack_type), ∃ s2,
           push v' h' s1 = Some (1, s2)
           ∧ free_list s2 [(2, 20); (3, 5)]).
Proof.
  pose proof (free_list_lifo demo [(3, 5)] demo_free) as [Hpop Hfree].
  split.
  - apply (Hpop 2 20 1).
    + vm_compute. split; reflexivity.
    + reflexivity.
    + simpl. rewrite list_elem_of_singleton. lia.
  - apply (Hfree 2 [(2, 20)] 1 10 2%nat).
    + exact demo_stack.
    + exact demo_separate.
    + simpl. lia.
Defined.

End SizeT.

(** ** The index type overflows: [stack_pool<Z, std::uint8_t>] *)

Section Uint8.
Local Existing Instance uint8_index.
Local Existing Instance doubling.

Notation "'let*' x ':=' m 'in' k" := (bind m (λ x, k))
  (at level 10, x name, m at level 100, k at level 200, only parsing).

Lemma full_reached :
  (let* h0 := new_stack in push_all (replicate 255 7) h0) stack_pool_default
  = Some (255, full).
Proof. vm_compute. reflexivity. Qed.

Lemma full_pushed :
  push_all (replicate 255 7) end_ (StackPool (Vector [] 0 0) end_)
  = Some (255, full).
Proof. vm_compute. reflexivity. Qed.

Lemma full_free : free_list full [].
Proof. apply chain_end. Qed.

Lemma full_traversed :
  to_list 255 1%positive 255 full = Some (replicate 255 7, full).
Proof. vm_compute. reflexivity. Qed.

(** C1 fails for an 8-bit index type: the 256th push onto a new stack
    returns the sentinel, and the iteration from it visits nothing. *)
Lemma push_all_lifo_overflow :
  free_list (stack_pool_default (T := Z)) []
  ∧ ∃ s',
      (let* h0 := new_stack in push_all (replicate 256 7) h0) stack_pool_default
      = Some (end_, s')
      ∧ (∀ fuel, to_list fuel 1%positive end_ s' = Some ([], s'))
      ∧ reverse (replicate 256 7) ≠ [].
Proof.
  split; [apply chain_end |].
  eexists. split_and!.
  - vm_compute. reflexivity.
  - intros fuel. by destruct fuel.
  - vm_compute. discriminate.
Qed.

(** The 255 nodes of [full] form one stack with the head 255. *)
Lemma full_stack : ∃ l, is_stack full 255 l ∧ l.*2 = replicate 255 7.
Proof.
  destruct (push_all_chain (T := Z) (replicate 255 7) [] 0 0 end_ end_ [] [])
    as (h' & es' & c' & r' & f' & l' & Hrun & Hch & Hvals & _).
  - apply chain_end.
  - apply chain_end.
  - apply separate_nil_r.
  - vm_compute. reflexivity.
  - rewrite full_pushed in Hrun. injection Hrun as <- <- <- <- <-.
    exists l'. rewrite app_nil_r in Hch. split; [exact Hch |].
    rewrite Hvals. vm_compute. reflexivity.
Qed.

(** C2 fails for an 8-bit index type: on the stack of 255 nodes [push]
    returns the sentinel, and [pop] on it returns the sentinel, not the
    head 255 that was pushed onto. *)
Lemma pop_push_overflow :
  free_list full []
  ∧ (∃ l, is_stack full 255 l)
  ∧ ∃ r s1 s2,
      push 7 255 full = Some (r, s1)
      ∧ pop r s1 = Some (end_, s2)
      ∧ s2 = s1
      ∧ end_ ≠ 255.
Proof.
  split; [exact full_free |].
  split; [destruct full_stack as (l & Hl & _); by exists l |].
  eexists _, _, _. split_and!.
  - vm_compute. reflexivity.
  - apply pop_end.
  - reflexivity.
  - discriminate.
Qed.

(** C7 fails for an 8-bit index type: on the stack of 255 nodes [push]
    appends node 256 and returns 0, which is neither the new size of the
    storage nor the handle of any node. *)
Lemma push_handle_overflow :
  free_list full []
  ∧ addressable full
  ∧ ∃ r s1,
      push 7 255 full = Some (r, s1)
      ∧ vec_size (pool s1) = 256%nat
      ∧ r = 0
      ∧ r ≠ Z.of_nat (vec_size (pool s1))
      ∧ node r s1 = None.
Proof.
  split; [exact full_free |].
  split; [vm_compute; reflexivity |].
  eexists _, _. split_and!.
  - vm_compute. reflexivity.
  - vm_compute. reflexivity.
  - reflexivity.
  - vm_compute. discriminate.
  - unfold node, vec_get. rewrite slot_end.
    rewrite lookup_ge_None_2; [reflexivity |].
    apply Nat2Z.inj_le. rewrite Z2Nat.id; vm_compute; discriminate.
Qed.

(** C9 fails for an 8-bit index type: on the stack of 255 nodes [push]
    returns a handle for which [empty] is true. *)
Lemma push_sentinel_overflow :
  free_list full []
  ∧ ∃ r s1, push 7 255 full = Some (r, s1) ∧ empty r = true.
Proof.
  split; [exact full_free |].
  eexists _, _. split.
  - vm_compute. reflexivity.
  - reflexivity.
Qed.

End Uint8.

(** ** The further properties at work: [stack_pool<Z, std::size_t>] *)

Section SizeTFurther.
Local Existing Instance size_t_index.
Local Existing Instance doubling.

Lemma demo_owns : owns demo [(2, [(2, 20); (1, 10)])] [(3, 5)].
Proof.
  unfold owns. split_and!.
  - vm_compute. reflexivity.
  - exact demo_free.
  - intros [|i] h l Hi; [| by destruct i]. injection Hi as <- <-.
    split; [exact demo_stack | exact demo_separate].
  - intros [|i] [|j] hi li hj lj Hne Hi Hj; [done | | |];
      try (by destruct j); by destruct i.
  - intros x Hx. change (vec_size (pool demo)) with 3%nat in Hx.
    assert (x = 1 ∨ x = 2 ∨ x = 3) as [-> | [-> | ->]] by lia.
    + right. exists 0%nat, 2, [(2, 20); (1, 10)]. split; [done |].
      simpl. rewrite !elem_of_cons. auto.
    + right. exists 0%nat, 2, [(2, 20); (1, 10)]. split; [done |].
      simpl. rewrite !elem_of_cons. auto.
    + left. simpl. rewrite !elem_of_cons. auto.
Qed.

Lemma demo_has_room : has_room demo.
Proof. intros Hf. vm_compute in Hf. discriminate Hf. Qed.

Lemma push_keeps_ownership_witness :
  ∃ r s',
    push 30 2 demo = Some (r, s')
    ∧ (vec_size (pool s') ≤ S (vec_size (pool demo)))%nat
    ∧ owns s' (<[0%nat := (r, (r, 30) :: [(2, 20); (1, 10)])]>
                 [(2, [(2, 20); (1, 10)])]) (tail [(3, 5)]).
Proof.
  apply (push_keeps_ownership demo [(2, [(2, 20); (1, 10)])] [(3, 5)]
           0%nat 2 [(2, 20); (1, 10)] 30).
  - exact demo_owns.
  - reflexivity.
  - exact demo_has_room.
Defined.

Lemma pop_keeps_ownership_witness :
  ∃ n s',
    pop 2 demo = Some (n, s')
    ∧ vec_size (pool s') = vec_size (pool demo)
    ∧ owns s' (<[0%nat := (n, [(1, 10)])]> [(2, [(2, 20); (1, 10)])])
           ((2, 20) :: [(3, 5)]).
Proof.
  apply (pop_keeps_ownership demo [(2, [(2, 20); (1, 10)])] [(3, 5)]
           0%nat 2 20 [(1, 10)]).
  - exact demo_owns.
  - reflexivity.
Defined.

Lemma free_stack_keeps_ownership_witness :
  ∃ s',
    free_stack 2 2 demo = Some (end_, s')
    ∧ vec_size (pool s') = vec_size (pool demo)
    ∧ owns s' (<[0%nat := (end_, [])]> [(2, [(2, 20); (1, 10)])])
           (reverse [(2, 20); (1, 10)] ++ [(3, 5)]).
Proof.
  apply (free_stack_keeps_ownership demo [(2, [(2, 20); (1, 10)])] [(3, 5)]
           0%nat 2 [(2, 20); (1, 10)] 2%nat).
  - exact demo_owns.
  - reflexivity.
  - simpl. lia.
Defined.

Lemma constructed_pool_owned_witness :
  (∃ s0 : stack_pool Z,
     stack_pool_sized 4 = Some s0
     ∧ vec_size (pool s0) = 0%nat
     ∧ free_nodes s0 = end_
     ∧ (4 ≤ capacity s0)%nat
     ∧ owns s0 [] [])
  ∧ (∃ s', reserve 4 demo = Some (tt, s')
           ∧ owns s' [(2, [(2, 20); (1, 10)])] [(3, 5)])
  ∧ (new_stack demo = Some (end_, demo)
     ∧ owns demo ([(2, [(2, 20); (1, 10)])] ++ [(end_, [])]) [(3, 5)]).
Proof.
  pose proof (constructed_pool_owned (T := Z) 4) as (Hnew & Hres & Hstack).
  split; [| split].
  - exact Hnew.
  - apply (Hres demo). exact demo_owns.
  - apply (Hstack demo). exact demo_owns.
Defined.

Lemma pool_refines_lists_witness :
  ∃ s0 heads s,
    stack_pool_sized 2 = Some s0
    ∧ run 5 [NewStack; Push 0 10; Push 0 20; NewStack; Push 1 7; Pop 0;
             FreeStack 1; Push 1 8] [] s0 = Some (heads, s)
    ∧ Forall2 (λ h vs, to_list 5 1%positive h s = Some (vs, s)) heads
        (run_list [NewStack; Push 0 10; Push 0 20; NewStack; Push 1 7; Pop 0;
                   FreeStack 1; Push 1 8] []).
Proof.
  apply (pool_refines_lists 2 5
           [NewStack; Push 0 10; Push 0 20; NewStack; Push 1 7; Pop 0;
            FreeStack 1; Push 1 8] 1%positive).
  - vm_compute. reflexivity.
  - simpl. lia.
Defined.

Lemma push_hands_out_consecutive_handles_witness :
  ∃ s',
    push_each [(30, 2); (40, 0)] packed
    = Some ((λ k : nat, Z.of_nat (vec_size (pool packed) + k)) <$> seq 1 2, s')
    ∧ vec_size (pool s') = (vec_size (pool packed) + 2)%nat
    ∧ free_nodes s' = end_.
Proof.
  apply (push_hands_out_consecutive_handles packed [(30, 2); (40, 0)]).
  - reflexivity.
  - vm_compute. reflexivity.
Defined.

Lemma double_pop_hands_node_out_twice_witness :
  ∃ s1 s2 s3 s4,
    pop 2 demo = Some (1, s1)
    ∧ pop 2 s1 = Some (free_nodes demo, s2)
    ∧ next 2 s2 = Some (2, s2)
    ∧ push 30 0 s2 = Some (2, s3)
    ∧ push 40 2 s3 = Some (2, s4)
    ∧ value 2 s4 = Some (40, s4)
    ∧ free_nodes s4 = 0.
Proof.
  apply (double_pop_hands_node_out_twice demo 2 20 1 30 40 0 2).
  - discriminate.
  - reflexivity.
Defined.

Lemma value_assign_in_place_witness :
  ∃ s',
    value_assign 1 99 demo = Some (tt, s')
    ∧ value 1 s' = Some (99, s')
    ∧ is_stack s' 2 (revalue 1 99 [(2, 20); (1, 10)])
    ∧ (revalue 1 99 [(2, 20); (1, 10)]).*1 = [(2, 20); (1, 10)].*1
    ∧ free_nodes s' = free_nodes demo
    ∧ vec_size (pool s') = vec_size (pool demo)
    ∧ (∀ y m, is_stack demo y m → 1 ∉ m.*1 → is_stack s' y m)
    ∧ (∀ (fuel : nat) (this : positive), (2 ≤ fuel)%nat →
         to_list fuel this 2 s'
         = Some ((revalue 1 99 [(2, 20); (1, 10)]).*2, s')).
Proof.
  apply (value_assign_in_place demo 2 [(2, 20); (1, 10)] 1 99).
  - exact demo_stack.
  - simpl. rewrite !elem_of_cons. auto.
Defined.

Lemma pop_then_push_restores_witness :
  ∃ s1, pop 2 demo = Some (1, s1) ∧ push 20 1 s1 = Some (2, demo).
Proof.
  apply (pop_then_push_restores demo 2 20 1).
  - discriminate.
  - reflexivity.
Defined.

Lemma iterator_walk_witness :
  advance 1 (begin 1%positive 2) demo
  = Some (Iterator 1%positive (handle_at [(2, 20); (1, 10)] 1), demo)
  ∧ (iterator_eq (Iterator 1%positive (handle_at [(2, 20); (1, 10 : Z)] 1))
       (end_it 1%positive 2) = true
     ↔ 1%nat = length [(2, 20); (1, 10 : Z)])
  ∧ (∀ x (v : Z), [(2, 20); (1, 10)] !! 1%nat = Some (x, v) →
       handle_at [(2, 20); (1, 10)] 1 = x
       ∧ deref (Iterator 1%positive x) demo = Some (v, demo)
       ∧ post_inc (Iterator 1%positive x) demo
         = Some ((Iterator 1%positive x,
                  Iterator 1%positive (handle_at [(2, 20); (1, 10)] 2)), demo)
       ∧ advance 2 (begin 1%positive 2) demo
         = Some (Iterator 1%positive (handle_at [(2, 20); (1, 10)] 2), demo)).
Proof.
  apply (iterator_walk demo 2 [(2, 20); (1, 10)] 1%positive 1).
  - exact demo_stack.
  - simpl. lia.
Defined.

Lemma pop_invalidates_iterator_witness :
  ∃ n s1,
    pop 2 demo = Some (n, s1)
    ∧ is_stack s1 n [(1, 10)]
    ∧ to_list 2 1%positive n s1 = Some ([(1, 10)].*2, s1)
    ∧ to_list 2 1%positive 2 s1 = Some (20 :: [(3, 5)].*2, s1).
Proof.
  apply (pop_invalidates_iterator demo 2 20 [(1, 10)] [(3, 5)] 2 1%positive).
  - exact demo_stack.
  - exact demo_free.
  - exact demo_separate.
  - simpl. lia.
  - simpl. lia.
Defined.

Lemma push_grow_handle_witness :
  ∃ r s',
    push 30 2 packed = Some (r, s')
    ∧ vec_size (pool s') = S (vec_size (pool packed))
    ∧ vec_get (pool s') (vec_size (pool packed)) = Some (Node 30 2)
    ∧ free_nodes s' = end_
    ∧ 0 <= r < 2 ^ width
    ∧ r <= Z.of_nat (vec_size (pool s'))
    ∧ (r = Z.of_nat (vec_size (pool s'))
       ↔ Z.of_nat (vec_size (pool s')) < 2 ^ width).
Proof.
  apply (push_grow_handle packed 30 2).
  reflexivity.
Defined.

Lemma next_assign_concatenates_witness :
  ∃ s',
    next_assign 1 3 demo = Some (tt, s')
    ∧ next 1 s' = Some (3, s')
    ∧ is_stack s' 2 ([(2, 20)] ++ (1, 10) :: [(3, 5)])
    ∧ is_stack s' 3 [(3, 5)]
    ∧ free_nodes s' = free_nodes demo.
Proof.
  apply (next_assign_concatenates demo 2 [(2, 20)] 1 10 3 [(3, 5)]).
  - exact demo_stack.
  - exact demo_free.
  - exact demo_separate.
Defined.

Lemma stack_loops_terminate_witness :
  (2 ≤ vec_size (pool demo))%nat
  ∧ NoDup [(2, 20); (1, 10 : Z)].*1
  ∧ to_list (vec_size (pool demo)) 1%positive 2 demo
    = Some ([(2, 20); (1, 10)].*2, demo)
  ∧ ∃ s', free_stack (vec_size (pool demo)) 2 demo = Some (end_, s').
Proof.
  apply (stack_loops_terminate demo 2 [(2, 20); (1, 10)] 1%positive).
  exact demo_stack.
Defined.

End SizeTFurther.

(** ** The exceptions at work: [stack_pool<Z, std::size_t>] with libstdc++ *)

Section Lp64.
Local Existing Instance size_t_index.
Local Existing Instance doubling.
Local Existing Instance lp64_limits.

Lemma size_max_beyond : (max_size < size_max)%nat.
Proof.
  unfold max_size, lp64_limits, size_max.
  apply Z2Nat.inj_lt; vm_compute; congruence.
Qed.



End Lp64.
